(** * Incremental feature selection (opencog/learning/feature-selection)

    A shallow embedding of [incremental_selection] from
    [feature_selection.h] and the properties of its specification.

    Conventions of the embedding:
    - a feature is a natural number and a [FeatureSet] (a [std::set]) is the
      list of its elements in increasing order, which is the order the C++
      iterators walk it in;
    - a [std::set<FeatureSet>] is the list of its members in the order of
      [std::set]'s comparison, which on sets is the lexicographic one;
    - a score and the threshold are IEEE-754 binary64 numbers ([double]),
      here the primitive [float] with its [<?], [=?] and [-];
    - the calls of [scorer_cache] are the one effect of the function: the
      code is written in a small monad [cached] whose only operation is that
      call, and the cache is the handler that runs it;
    - the function is embedded twice.  [incremental_selection] is the loop
      over unbounded naturals, with the operands of line 86 evaluated from
      left to right and a cache of [|features|^max_size] entries.
      [incremental_selection_on] is the function on the machine: [max_size]
      and the counter are 32-bit [unsigned int] that wrap, the loop is run
      with fuel since it need not end, and a [platform] fixes what C++
      leaves open (the order of the operands of line 86, and the cache size
      when the conversions of line 58 are out of range).  The second returns
      what the first returns whenever it returns
      ([incremental_selection_on_returns]). *)

From Stdlib Require Import List Arith PeanoNat Bool Lia ZArith NArith Permutation Sorted.
From Stdlib Require Import Floats.
Import ListNotations.

Set Implicit Arguments.

(** ** Features and feature sets *)

Definition Feature : Type := nat.
Definition FeatureSet : Type := list Feature.
Definition Score : Type := float.
Definition Scorer : Type := FeatureSet -> Score.

Definition fs_eq_dec : forall a b : FeatureSet, {a = b} + {a <> b} :=
  list_eq_dec Nat.eq_dec.

Definition fs_eqb (a b : FeatureSet) : bool :=
  if fs_eq_dec a b then true else false.

Definition mem (x : Feature) (s : FeatureSet) : bool := existsb (Nat.eqb x) s.

(** [s.insert(x)] on an ordered set. *)
Fixpoint set_insert (x : Feature) (s : FeatureSet) : FeatureSet :=
  match s with
  | [] => [x]
  | y :: s' =>
      match Nat.compare x y with
      | Lt => x :: s
      | Eq => s
      | Gt => y :: set_insert x s'
      end
  end.

(** [s.insert(first, last)], and what writing a range through
    [std::inserter(s, s.begin())] does: every element of the range is
    inserted in turn. *)
Definition insert_range (l : list Feature) (s : FeatureSet) : FeatureSet :=
  fold_left (fun acc x => set_insert x acc) l s.

(** The range [std::set_difference] writes for two ordered sets: the elements
    of the first that are not found in the second, in order. *)
Definition set_difference (a b : FeatureSet) : list Feature :=
  filter (fun x => negb (mem x b)) a.

(** [s.empty()]: a query, the set is left as it is. *)
Definition empty (s : FeatureSet) : bool :=
  match s with [] => true | _ :: _ => false end.

(** [s.erase(f)]. *)
Definition erase (f : Feature) (s : FeatureSet) : FeatureSet :=
  filter (fun x => negb (Nat.eqb x f)) s.

(** Modelled from the spec: [has_empty_intersection] (of opencog/util, which
    the header only calls) holds of a candidate and the redundant set when
    no feature of the candidate has been marked redundant. *)
Definition has_empty_intersection (a b : FeatureSet) : bool :=
  forallb (fun x => negb (mem x b)) a.

(** Modelled from the spec: [powerset(s, n, true)] (the combination generator
    of opencog/util, which the header only calls) produces every subset of
    [s] of cardinality exactly [n], with no duplicates.  The subsets come in
    the order a [std::set<FeatureSet>] holds them. *)
Fixpoint powerset (s : FeatureSet) (n : nat) {struct s} : list FeatureSet :=
  match n, s with
  | 0, _ => [[]]
  | S _, [] => []
  | S n', x :: s' => map (cons x) (powerset s' n') ++ powerset s' n
  end.

(** ** The effect: a query of the score cache *)

Inductive cached (A : Type) : Type :=
| Ret : A -> cached A
| Query : FeatureSet -> (Score -> cached A) -> cached A.

Arguments Ret {A} _.
Arguments Query {A} _ _.

Fixpoint bind {A B : Type} (m : cached A) (k : A -> cached B) : cached B :=
  match m with
  | Ret a => k a
  | Query fs h => Query fs (fun v => bind (h v) k)
  end.

Notation "x <- m ;; k" := (bind m (fun x => k))
  (at level 61, m at next level, right associativity).

(** [scorer_cache(fs)]. *)
Definition scorer_cache (fs : FeatureSet) : cached Score := Query fs Ret.

(** A [foreach] loop that updates a local variable. *)
Fixpoint foreach {A B : Type} (l : list B) (body : A -> B -> cached A) (a : A)
  : cached A :=
  match l with
  | [] => Ret a
  | x :: l' => a' <- body a x ;; foreach l' body a'
  end.

(** The scorer asked directly: what a query answers when nothing is cached. *)
Fixpoint eval {A : Type} (scorer : Scorer) (p : cached A) : A :=
  match p with
  | Ret a => a
  | Query fs k => eval scorer (k (scorer fs))
  end.

(** ** The score cache

    Modelled from the spec: [lru_cache] (opencog/util/lru_cache.h, which the
    header only includes) memoizes the scorer per key, holds at most
    [capacity] entries and drops the least recently used one when an
    insertion exceeds the capacity.  [entries] has the most recently used key
    first.  [misses] logs the keys the scorer was invoked on and [lookups]
    every key queried, latest first (the counting double of the scorer). *)
Record lru_cache : Type := mk_cache {
  capacity : nat;
  entries : list (FeatureSet * Score);
  misses : list FeatureSet;
  lookups : list FeatureSet
}.

Definition new_cache (n : nat) : lru_cache := mk_cache n [] [] [].

Fixpoint find_entry (x : FeatureSet) (es : list (FeatureSet * Score))
  : option Score :=
  match es with
  | [] => None
  | (k, v) :: es' => if fs_eqb k x then Some v else find_entry x es'
  end.

Fixpoint remove_entry (x : FeatureSet) (es : list (FeatureSet * Score))
  : list (FeatureSet * Score) :=
  match es with
  | [] => []
  | (k, v) :: es' => if fs_eqb k x then es' else (k, v) :: remove_entry x es'
  end.

Definition lookup (scorer : Scorer) (x : FeatureSet) (c : lru_cache)
  : Score * lru_cache :=
  match find_entry x (entries c) with
  | Some v =>
      (v, mk_cache (capacity c) ((x, v) :: remove_entry x (entries c))
                   (misses c) (x :: lookups c))
  | None =>
      let v := scorer x in
      (v, mk_cache (capacity c) (firstn (capacity c) ((x, v) :: entries c))
                   (x :: misses c) (x :: lookups c))
  end.

Fixpoint run_cached {A : Type} (scorer : Scorer) (p : cached A) (c : lru_cache)
  : A * lru_cache :=
  match p with
  | Ret a => (a, c)
  | Query fs k =>
      let (v, c') := lookup scorer fs c in run_cached scorer (k v) c'
  end.

(** ** incremental_selection *)

Section Selection.

Variable features : FeatureSet.
Variable threshold : Score.
Variable remove_red : bool.

(** The two sets that live across the iterations of the loop. *)
Record loop_state : Type := mk_state {
  rel : FeatureSet;
  res : FeatureSet
}.

(** [tf]: the features to test for relevancy. *)
Definition tf (rel0 : FeatureSet) : FeatureSet :=
  insert_range (set_difference features rel0) [].

(** [fss]: the candidate subsets of iteration [i]. *)
Definition candidates (i : nat) (rel0 : FeatureSet) : list FeatureSet :=
  powerset (tf rel0) i.

(** [if (scorer_cache(fs) > threshold) rel.insert(fs.begin(), fs.end())]. *)
Definition relevance_test (rel0 : FeatureSet) (fs : FeatureSet)
  : cached FeatureSet :=
  s <- scorer_cache fs ;;
  Ret (if (threshold <? s)%float then insert_range fs rel0 else rel0).

(** The inner loop over the features of a candidate: the first feature whose
    removal costs less than [threshold], if any ([break]).  The operands of
    the subtraction are evaluated from left to right here; [find_redundant_on]
    below has either order. *)
Fixpoint find_redundant (fs : FeatureSet) (l : list Feature)
  : cached (option Feature) :=
  match l with
  | [] => Ret None
  | f :: l' =>
      let fs_without_f := erase f fs in
      a <- scorer_cache fs ;;
      b <- scorer_cache fs_without_f ;;
      let score_diff := (a - b)%float in
      if (score_diff <? threshold)%float then Ret (Some f)
      else find_redundant fs l'
  end.

Definition redundancy_test (red : FeatureSet) (fs : FeatureSet)
  : cached FeatureSet :=
  if has_empty_intersection fs red then
    r <- find_redundant fs fs ;;
    Ret (match r with Some f => set_insert f red | None => red end)
  else Ret red.

(** The body of the [for] loop.  Line 71, [rel.empty()], is a call of
    [std::set::empty() const]: it answers whether [rel] is empty, the answer
    is dropped, and [rel] is what it was. *)
Definition iteration (st : loop_state) (i : nat) : cached loop_state :=
  let fss := candidates i (rel st) in
  let _ := empty (rel st) in
  rel' <- foreach fss relevance_test (rel st) ;;
  if remove_red then
    let nrfss := powerset rel' (i + 1) in
    red <- foreach nrfss redundancy_test [] ;;
    Ret (mk_state rel' (insert_range (set_difference rel' red) (res st)))
  else
    Ret (mk_state rel' (insert_range rel' (res st))).

(** The loop [for (i = 1; i <= max_size; i++)], entered with [rel] and [res]
    empty, with a counter that does not wrap: the iterations 1 to
    [max_size].  [for_loop] below has the 32-bit counter. *)
Definition selection_loop (max_size : nat) : cached loop_state :=
  foreach (seq 1 max_size) iteration (mk_state [] []).

End Selection.

(** One call of the loop over the naturals, with the cache it builds and
    leaves behind.  The cache has [|features|^max_size] entries, the exact
    power; [cache_size] below has the conversions of line 58. *)
Definition run_selection (features : FeatureSet) (scorer : Scorer)
    (threshold : Score) (max_size : nat) (remove_red : bool)
  : loop_state * lru_cache :=
  run_cached scorer (selection_loop features threshold remove_red max_size)
             (new_cache (length features ^ max_size)).

Definition incremental_selection (features : FeatureSet) (scorer : Scorer)
    (threshold : Score) (max_size : nat) (remove_red : bool) : FeatureSet :=
  res (fst (run_selection features scorer threshold max_size remove_red)).

(** The state after the first [k] iterations, scores taken from the scorer. *)
Definition state_after (features : FeatureSet) (scorer : Scorer)
    (threshold : Score) (remove_red : bool) (k : nat) : loop_state :=
  eval scorer (selection_loop features threshold remove_red k).

(** ** What the proofs speak about *)

(** [subset_of fs s]: the ordered set [fs] is made of elements of the ordered
    set [s], taken in order. *)
Inductive subset_of : FeatureSet -> FeatureSet -> Prop :=
| subset_nil : subset_of [] []
| subset_take : forall x fs s, subset_of fs s -> subset_of (x :: fs) (x :: s)
| subset_skip : forall x fs s, subset_of fs s -> subset_of fs (x :: s).

(** Every entry of the cache holds the score of its key. *)
Definition consistent (scorer : Scorer) (c : lru_cache) : Prop :=
  forall k v, In (k, v) (entries c) -> v = scorer k.

(** [rel] after the relevance pass of iteration [i], and [red] after its
    redundancy pass, with the scores taken from the scorer. *)
Definition relevant_after (features : FeatureSet) (scorer : Scorer)
    (threshold : Score) (i : nat) (rel0 : FeatureSet) : FeatureSet :=
  eval scorer (foreach (candidates features i rel0)
                       (relevance_test threshold) rel0).

Definition redundant_in (scorer : Scorer) (threshold : Score) (i : nat)
    (rel' : FeatureSet) : FeatureSet :=
  eval scorer (foreach (powerset rel' (i + 1)) (redundancy_test threshold) []).

(** Two scores are the same when they are the same number: the same value,
    or two values [==] holds of (which also takes [+0] and [-0] together). *)
Definition same_score (x y : Score) : Prop :=
  x = y \/ (x =? y)%float = true.

(** The set [tf] of iteration [i] of a call, the candidates its relevance pass
    tests, and the features it confirms relevant. *)
Definition tf_at (features : FeatureSet) (scorer : Scorer)
    (threshold : Score) (remove_red : bool) (i : nat) : FeatureSet :=
  tf features (rel (state_after features scorer threshold remove_red (i - 1))).

Definition tested_at (features : FeatureSet) (scorer : Scorer)
    (threshold : Score) (remove_red : bool) (i : nat) : list FeatureSet :=
  candidates features i
             (rel (state_after features scorer threshold remove_red (i - 1))).

Definition confirmed_at (features : FeatureSet) (scorer : Scorer)
    (threshold : Score) (remove_red : bool) (i : nat) (f : Feature) : Prop :=
  exists fs, In fs (tested_at features scorer threshold remove_red i)
             /\ (threshold <? scorer fs)%float = true /\ In f fs.

(** As long as nothing was evicted the cache holds exactly the keys the
    scorer was invoked on, each once. *)
Definition no_eviction_yet (c : lru_cache) : Prop :=
  NoDup (misses c)
  /\ Permutation (map fst (entries c)) (misses c)
  /\ incl (misses c) (lookups c).

Definition within_capacity (c : lru_cache) : Prop :=
  length (nodup fs_eq_dec (lookups c)) <= capacity c.

(** ** Example pools *)

(** The pool of the specification's scenario, [A = 0], [B = 1], [C = 2],
    with scores that are binary fractions. *)
Definition scenario_score (fs : FeatureSet) : Score :=
  match fs with
  | [0] => 0.75%float
  | [1] => 0.25%float
  | [2] => 0.5%float
  | [0; 2] => 0.875%float
  | _ => 0%float
  end.

(** Every non-empty subset scores 1: no feature adds to another. *)
Definition flat_score (fs : FeatureSet) : Score :=
  match fs with
  | [] => 0%float
  | _ :: _ => 1%float
  end.

(** The score is the number of features, up to two. *)
Definition count_score (fs : FeatureSet) : Score :=
  match fs with
  | [] => 0%float
  | [_] => 1%float
  | _ => 2%float
  end.

(** Singletons score exactly 0.5, the pair scores 1. *)
Definition pair_score (fs : FeatureSet) : Score :=
  match fs with
  | [_] => 0.5%float
  | [_; _] => 1%float
  | _ => 0%float
  end.

(** The number of features again, computed from the length. *)
Definition length_score (fs : FeatureSet) : Score :=
  match length fs with
  | 0 => 0%float
  | 1 => 1%float
  | _ => 2%float
  end.

(** ** The trace of a call *)

(** The subsets a piece of code asks [scorer_cache] about, in the order it
    asks. *)
Fixpoint queries {A : Type} (scorer : Scorer) (p : cached A)
  : list FeatureSet :=
  match p with
  | Ret _ => []
  | Query fs k => fs :: queries scorer (k (scorer fs))
  end.

(** A subset the scorer can be asked about in a call: not empty, made of
    features of the pool, of at most [n] features. *)
Definition askable (features : FeatureSet) (n : nat) (q : FeatureSet) : Prop :=
  q <> [] /\ incl q features /\ length q <= n.

(** The score lost when [f] is taken out of [fs] is strictly below the
    threshold: the test of line 87. *)
Definition redundant_in_subset (scorer : Scorer) (threshold : Score)
    (fs : FeatureSet) (f : Feature) : Prop :=
  In f fs
  /\ (scorer fs - scorer (erase f fs) <? threshold)%float = true.

(** ** The function on the machine *)

Definition UINT_MAX : N := 4294967295.
Definition INT_MAX : N := 2147483647.

(** Arithmetic on [unsigned int] is modulo [UINT_MAX + 1]. *)
Definition uint (x : N) : N := (x mod 4294967296)%N.

(** What C++ leaves to the implementation: which operand of the subtraction
    of line 86 is evaluated first, and the size the cache gets when a
    conversion of line 58 is out of range. *)
Record platform : Type := mk_platform {
  left_first : bool;
  converted_size : nat
}.

(** Line 58, [std::pow((double)features.size(), (int)max_size)] converted to
    the size of the cache.  The conversion to [int] keeps [max_size] up to
    [INT_MAX]; the power is computed and converted exactly when it is below
    [2^32] (it then fits a [double] and any unsigned size type of 32 bits or
    more).  Otherwise the size is the platform's. *)
Definition cache_size (pf : platform) (n : nat) (max_size : N) : nat :=
  if ((max_size <=? INT_MAX) && (N.of_nat n ^ max_size <? 4294967296))%N
  then N.to_nat (N.of_nat n ^ max_size)
  else converted_size pf.

Section Machine.

Variable pf : platform.
Variable features : FeatureSet.
Variable threshold : Score.
Variable remove_red : bool.

(** Lines 82 to 91, with the operands of [scorer_cache(fs) -
    scorer_cache(fs_without_f)] evaluated in the platform's order. *)
Fixpoint find_redundant_on (fs : FeatureSet) (l : list Feature)
  : cached (option Feature) :=
  match l with
  | [] => Ret None
  | f :: l' =>
      let fs_without_f := erase f fs in
      if left_first pf then
        a <- scorer_cache fs ;;
        b <- scorer_cache fs_without_f ;;
        let score_diff := (a - b)%float in
        if (score_diff <? threshold)%float then Ret (Some f)
        else find_redundant_on fs l'
      else
        b <- scorer_cache fs_without_f ;;
        a <- scorer_cache fs ;;
        let score_diff := (a - b)%float in
        if (score_diff <? threshold)%float then Ret (Some f)
        else find_redundant_on fs l'
  end.

Definition redundancy_test_on (red : FeatureSet) (fs : FeatureSet)
  : cached FeatureSet :=
  if has_empty_intersection fs red then
    r <- find_redundant_on fs fs ;;
    Ret (match r with Some f => set_insert f red | None => red end)
  else Ret red.

(** The body of the [for] loop at the value [i] of the 32-bit counter; the
    [i+1] of line 77 is computed on [unsigned int]. *)
Definition iteration_on (st : loop_state) (i : N) : cached loop_state :=
  let fss := candidates features (N.to_nat i) (rel st) in
  let _ := empty (rel st) in
  rel' <- foreach fss (relevance_test threshold) (rel st) ;;
  if remove_red then
    let nrfss := powerset rel' (N.to_nat (uint (i + 1))) in
    red <- foreach nrfss redundancy_test_on [] ;;
    Ret (mk_state rel' (insert_range (set_difference rel' red) (res st)))
  else
    Ret (mk_state rel' (insert_range rel' (res st))).

(** [for (unsigned int i = ...; i <= max_size; i++)] from the counter value
    [i]: [Some] of the state in which the loop is left, [None] when it has
    not been left after [fuel] tests of [i <= max_size]. *)
Fixpoint for_loop (fuel : nat) (max_size i : N) (st : loop_state)
  : cached (option loop_state) :=
  match fuel with
  | O => Ret None
  | S fuel' =>
      if (i <=? max_size)%N then
        st' <- iteration_on st i ;;
        for_loop fuel' max_size (uint (i + 1)) st'
      else Ret (Some st)
  end.

End Machine.

(** One call on the machine, with the cache it builds and leaves behind. *)
Definition run_incremental_selection (pf : platform) (fuel : nat)
    (features : FeatureSet) (scorer : Scorer) (threshold : Score)
    (max_size : N) (remove_red : bool) : option loop_state * lru_cache :=
  run_cached scorer
             (for_loop pf features threshold remove_red fuel max_size 1
                       (mk_state [] []))
             (new_cache (cache_size pf (length features) max_size)).

(** The set the call returns, if it returns within [fuel] tests. *)
Definition incremental_selection_on (pf : platform) (fuel : nat)
    (features : FeatureSet) (scorer : Scorer) (threshold : Score)
    (max_size : N) (remove_red : bool) : option FeatureSet :=
  option_map res
    (fst (run_incremental_selection pf fuel features scorer threshold
                                    max_size remove_red)).

(** Two platforms: operands from left to right and from right to left. *)
Definition left_to_right : platform := mk_platform true 0.
Definition right_to_left : platform := mk_platform false 7.

(** The order of a [std::set<FeatureSet>]: feature sets compare as the
    sequences of their elements, lexicographically. *)
Inductive lex_lt : FeatureSet -> FeatureSet -> Prop :=
| lex_nil : forall y t, lex_lt [] (y :: t)
| lex_head : forall x s y t, x < y -> lex_lt (x :: s) (y :: t)
| lex_tail : forall x s t, lex_lt s t -> lex_lt (x :: s) (x :: t).

(** * Properties *)

(** ** Membership in the set operations *)

Lemma mem_In (x : Feature) (s : FeatureSet) : mem x s = true <-> In x s.
Proof.
  unfold mem. rewrite existsb_exists. split.
  - intros [y [Hy E]]. apply Nat.eqb_eq in E. now subst.
  - intros H. exists x. split; [exact H | apply Nat.eqb_refl].
Qed.

Lemma mem_false (x : Feature) (s : FeatureSet) : mem x s = false <-> ~ In x s.
Proof.
  rewrite <- mem_In. destruct (mem x s); split; congruence.
Qed.

Lemma In_set_insert (x y : Feature) (s : FeatureSet) :
  In x (set_insert y s) <-> x = y \/ In x s.
Proof.
  induction s as [|z s IH]; simpl.
  - intuition.
  - destruct (Nat.compare_spec y z) as [E|L|G]; simpl.
    + subst. intuition.
    + intuition.
    + rewrite IH. intuition.
Qed.

Lemma In_insert_range (x : Feature) (l : list Feature) (s : FeatureSet) :
  In x (insert_range l s) <-> In x l \/ In x s.
Proof.
  unfold insert_range. revert s.
  induction l as [|y l IH]; intros s; simpl.
  - intuition.
  - rewrite IH, In_set_insert. intuition.
Qed.

Lemma In_set_difference (x : Feature) (a b : FeatureSet) :
  In x (set_difference a b) <-> In x a /\ ~ In x b.
Proof.
  unfold set_difference. rewrite filter_In, negb_true_iff, mem_false.
  reflexivity.
Qed.

Lemma In_tf (features rel0 : FeatureSet) (x : Feature) :
  In x (tf features rel0) <-> In x features /\ ~ In x rel0.
Proof.
  unfold tf. rewrite In_insert_range, In_set_difference.
  simpl. intuition.
Qed.

Lemma In_powerset (s : FeatureSet) :
  forall n fs, In fs (powerset s n) -> incl fs s /\ length fs = n.
Proof.
  induction s as [|x s IH]; intros [|n] fs H; simpl in H.
  - destruct H as [<-|[]]. split; [apply incl_nil_l | reflexivity].
  - destruct H.
  - destruct H as [<-|[]]. split; [apply incl_nil_l | reflexivity].
  - apply in_app_or in H. destruct H as [H|H].
    + apply in_map_iff in H. destruct H as [t [<- Ht]].
      destruct (IH _ _ Ht) as [Hi Hl]. split.
      * intros y [<-|Hy]; [now left | right; now apply Hi].
      * simpl. now rewrite Hl.
    + destruct (IH _ _ H) as [Hi Hl]. split; [|exact Hl].
      intros y Hy. right. now apply Hi.
Qed.

Lemma powerset_nil (n : nat) : powerset [] (S n) = [].
Proof. reflexivity. Qed.

Lemma powerset_singletons (s : FeatureSet) :
  powerset s 1 = map (fun x => [x]) s.
Proof.
  induction s as [|x s IH]; [reflexivity|].
  simpl. rewrite IH. destruct s; reflexivity.
Qed.

(** The generator yields the subsets of the given cardinality, all of them,
    and each once. *)
Lemma subset_of_nil (s : FeatureSet) : subset_of [] s.
Proof.
  induction s as [|x s IH]; [constructor | now apply subset_skip].
Qed.

Lemma subset_of_incl (fs s : FeatureSet) : subset_of fs s -> incl fs s.
Proof.
  induction 1 as [|x fs s H IH|x fs s H IH].
  - apply incl_refl.
  - intros y [<-|Hy]; [now left | right; now apply IH].
  - now apply incl_tl.
Qed.

Lemma In_powerset_iff (s : FeatureSet) :
  forall n fs, In fs (powerset s n) <-> subset_of fs s /\ length fs = n.
Proof.
  induction s as [|x s IH]; intros [|n] fs; simpl.
  - split.
    + intros [<-|[]]. split; [constructor | reflexivity].
    + intros [_ H]. left. symmetry. now apply length_zero_iff_nil.
  - split; [intros [] | intros [H L]]. inversion H; subst. discriminate.
  - split.
    + intros [<-|[]]. split; [apply subset_of_nil | reflexivity].
    + intros [_ H]. left. symmetry. now apply length_zero_iff_nil.
  - rewrite in_app_iff, in_map_iff. split.
    + intros [[t [<- Ht]]|H].
      * apply IH in Ht. destruct Ht as [Ht <-].
        split; [now constructor | reflexivity].
      * apply IH in H. destruct H as [H L].
        split; [now apply subset_skip | exact L].
    + intros [H L]. inversion H as [|y t s' Ht|y t s' Ht]; subst.
      * left. exists t. split; [reflexivity|]. apply IH.
        simpl in L. split; [exact Ht | lia].
      * right. apply IH. split; assumption.
Qed.

Lemma powerset_NoDup (s : FeatureSet) :
  NoDup s -> forall n, NoDup (powerset s n).
Proof.
  induction 1 as [|x s Hx Hs IH]; intros [|n]; simpl;
    try (repeat constructor; simpl; tauto).
  apply NoDup_app.
  - specialize (IH n). induction IH as [|t l Ht Hl IHl]; simpl; constructor.
    + rewrite in_map_iff. intros [u [[= ->] Hu]]. contradiction.
    + exact IHl.
  - apply IH.
  - intros fs H1 H2. apply in_map_iff in H1. destruct H1 as [t [<- _]].
    apply In_powerset in H2. destruct H2 as [H2 _]. apply Hx, H2. now left.
Qed.

(** ** The monad *)

Lemma eval_bind {A B : Type} (scorer : Scorer) (m : cached A)
    (k : A -> cached B) :
  eval scorer (bind m k) = eval scorer (k (eval scorer m)).
Proof.
  induction m as [a|fs h IH]; simpl; [reflexivity | apply IH].
Qed.

Lemma eval_foreach {A B : Type} (scorer : Scorer) (body : A -> B -> cached A)
    (l : list B) :
  forall a, eval scorer (foreach l body a)
            = fold_left (fun a x => eval scorer (body a x)) l a.
Proof.
  induction l as [|x l IH]; intros a; simpl; [reflexivity|].
  now rewrite eval_bind, IH.
Qed.

Lemma run_cached_bind {A B : Type} (scorer : Scorer) (m : cached A)
    (k : A -> cached B) :
  forall c, run_cached scorer (bind m k) c
            = let (a, c') := run_cached scorer m c in run_cached scorer (k a) c'.
Proof.
  induction m as [a|fs h IH]; intros c; simpl; [reflexivity|].
  destruct (lookup scorer fs c) as [v c']. apply IH.
Qed.

(** ** The cache answers what the scorer answers *)

Lemma fs_eqb_eq (a b : FeatureSet) : fs_eqb a b = true <-> a = b.
Proof.
  unfold fs_eqb. destruct (fs_eq_dec a b); split; congruence.
Qed.

Lemma find_entry_In (x : FeatureSet) (es : list (FeatureSet * Score)) (v : Score) :
  find_entry x es = Some v -> In (x, v) es.
Proof.
  induction es as [|[k w] es IH]; simpl; [discriminate|].
  destruct (fs_eqb k x) eqn:E.
  - apply fs_eqb_eq in E. intros [= <-]. left. now subst.
  - intros H. right. now apply IH.
Qed.

Lemma remove_entry_incl (x : FeatureSet) (es : list (FeatureSet * Score)) :
  incl (remove_entry x es) es.
Proof.
  induction es as [|[k w] es IH]; simpl; [apply incl_refl|].
  destruct (fs_eqb k x).
  - apply incl_tl, incl_refl.
  - intros e [<-|He]; [now left | right; now apply IH].
Qed.

Lemma firstn_incl {A : Type} (n : nat) (l : list A) : incl (firstn n l) l.
Proof.
  intros x Hx. rewrite <- (firstn_skipn n l). apply in_or_app. now left.
Qed.

Lemma lookup_value (scorer : Scorer) (x : FeatureSet) (c : lru_cache) :
  consistent scorer c -> fst (lookup scorer x c) = scorer x.
Proof.
  intros Hc. unfold lookup.
  destruct (find_entry x (entries c)) as [v|] eqn:E; simpl; [|reflexivity].
  apply (Hc x v). now apply find_entry_In.
Qed.

Lemma lookup_consistent (scorer : Scorer) (x : FeatureSet) (c : lru_cache) :
  consistent scorer c -> consistent scorer (snd (lookup scorer x c)).
Proof.
  intros Hc. unfold lookup.
  destruct (find_entry x (entries c)) as [v|] eqn:E; simpl; intros k w Hk;
    simpl in Hk.
  - destruct Hk as [[= <- <-]|Hk].
    + apply (Hc x v). now apply find_entry_In.
    + apply Hc. now apply (remove_entry_incl x).
  - apply firstn_incl in Hk. destruct Hk as [[= <- <-]|Hk]; [reflexivity|].
    now apply Hc.
Qed.

Lemma run_cached_eval {A : Type} (scorer : Scorer) (p : cached A) :
  forall c, consistent scorer c ->
            fst (run_cached scorer p c) = eval scorer p.
Proof.
  induction p as [a|fs k IH]; intros c Hc; simpl; [reflexivity|].
  pose proof (@lookup_value scorer fs c Hc) as Hv.
  pose proof (@lookup_consistent scorer fs c Hc) as Hc'.
  destruct (lookup scorer fs c) as [v c']. simpl in Hv, Hc'. subst v.
  now apply IH.
Qed.

Lemma new_cache_consistent (scorer : Scorer) (n : nat) :
  consistent scorer (new_cache n).
Proof. intros k v []. Qed.

(** ** The loop, with the scores taken from the scorer *)

Lemma eval_relevance_test (scorer : Scorer) (threshold : Score)
    (rel0 fs : FeatureSet) :
  eval scorer (relevance_test threshold rel0 fs)
  = if (threshold <? scorer fs)%float then insert_range fs rel0 else rel0.
Proof. reflexivity. Qed.

Lemma eval_iteration (features : FeatureSet) (scorer : Scorer)
    (threshold : Score) (remove_red : bool) (st : loop_state) (i : nat) :
  eval scorer (iteration features threshold remove_red st i)
  = let rel' := relevant_after features scorer threshold i (rel st) in
    mk_state rel'
      (if remove_red
       then insert_range
              (set_difference rel' (redundant_in scorer threshold i rel'))
              (res st)
       else insert_range rel' (res st)).
Proof.
  unfold iteration, relevant_after, redundant_in. rewrite eval_bind.
  destruct remove_red; [rewrite eval_bind|]; reflexivity.
Qed.

Lemma state_after_0 (features : FeatureSet) (scorer : Scorer)
    (threshold : Score) (remove_red : bool) :
  state_after features scorer threshold remove_red 0 = mk_state [] [].
Proof. reflexivity. Qed.

Lemma state_after_S (features : FeatureSet) (scorer : Scorer)
    (threshold : Score) (remove_red : bool) (k : nat) :
  state_after features scorer threshold remove_red (S k)
  = eval scorer
      (iteration features threshold remove_red
                 (state_after features scorer threshold remove_red k) (S k)).
Proof.
  unfold state_after, selection_loop.
  rewrite !eval_foreach, seq_S, fold_left_app. reflexivity.
Qed.

Lemma incremental_selection_eval (features : FeatureSet) (scorer : Scorer)
    (threshold : Score) (max_size : nat) (remove_red : bool) :
  incremental_selection features scorer threshold max_size remove_red
  = res (state_after features scorer threshold remove_red max_size).
Proof.
  unfold incremental_selection, run_selection, state_after.
  rewrite run_cached_eval; [reflexivity | apply new_cache_consistent].
Qed.

Lemma run_cached_consistent {A : Type} (scorer : Scorer) (p : cached A) :
  forall c, consistent scorer c ->
            consistent scorer (snd (run_cached scorer p c)).
Proof.
  induction p as [a|fs k IH]; intros c Hc; simpl; [exact Hc|].
  pose proof (@lookup_consistent scorer fs c Hc) as Hc'.
  destruct (lookup scorer fs c) as [v c']. now apply IH.
Qed.

Lemma run_cached_foreach_app {A B : Type} (scorer : Scorer)
    (body : A -> B -> cached A) (l1 l2 : list B) :
  forall a c,
    run_cached scorer (foreach (l1 ++ l2) body a) c
    = let (a', c') := run_cached scorer (foreach l1 body a) c in
      run_cached scorer (foreach l2 body a') c'.
Proof.
  induction l1 as [|x l1 IH]; intros a c; simpl; [reflexivity|].
  rewrite !run_cached_bind.
  destruct (run_cached scorer (body a x) c) as [a1 c1]. apply IH.
Qed.

(** Within a call, the loop reaches iteration [k + 1] in the state
    [state_after k], whatever the cache holds by then. *)
Lemma run_selection_through (features : FeatureSet) (scorer : Scorer)
    (threshold : Score) (max_size : nat) (remove_red : bool) (k : nat) :
  k <= max_size ->
  exists c,
    consistent scorer c
    /\ run_selection features scorer threshold max_size remove_red
       = run_cached scorer
           (foreach (seq (S k) (max_size - k))
                    (iteration features threshold remove_red)
                    (state_after features scorer threshold remove_red k))
           c.
Proof.
  intros Hk. unfold run_selection, selection_loop, state_after.
  assert (Hs : seq 1 max_size = seq 1 k ++ seq (S k) (max_size - k)).
  { rewrite <- seq_app. f_equal. lia. }
  rewrite Hs, run_cached_foreach_app.
  set (c0 := new_cache (length features ^ max_size)).
  assert (H0 : consistent scorer c0) by apply new_cache_consistent.
  pose proof (@run_cached_eval _ scorer
                (selection_loop features threshold remove_red k) c0 H0) as He.
  pose proof (@run_cached_consistent _ scorer
                (selection_loop features threshold remove_red k) c0 H0) as Hc.
  unfold selection_loop in He, Hc.
  destruct (run_cached scorer
              (foreach (seq 1 k) (iteration features threshold remove_red)
                       (mk_state [] [])) c0) as [st c].
  simpl in He, Hc. subst st. exists c. split; [exact Hc | reflexivity].
Qed.

Lemma In_relevance_fold (scorer : Scorer) (threshold : Score)
    (fss : list FeatureSet) (f : Feature) :
  forall rel0,
    In f (fold_left (fun a fs => eval scorer (relevance_test threshold a fs))
                    fss rel0)
    <-> In f rel0
        \/ exists fs, In fs fss /\ (threshold <? scorer fs)%float = true
                      /\ In f fs.
Proof.
  induction fss as [|fs fss IH]; intros rel0; cbn [fold_left].
  - split; [now left | intros [H|[fs [[] _]]]; exact H].
  - rewrite IH, eval_relevance_test. split.
    + intros [H|[fs' [H1 [H2 H3]]]].
      * destruct (threshold <? scorer fs)%float eqn:E; [|now left].
        apply In_insert_range in H. destruct H as [H|H]; [|now left].
        right. exists fs. repeat split; [now left | exact E | exact H].
      * right. exists fs'. repeat split; [now right | exact H2 | exact H3].
    + intros [H|[fs' [[<-|H1] [H2 H3]]]].
      * left. destruct (threshold <? scorer fs)%float; [|exact H].
        apply In_insert_range. now right.
      * left. rewrite H2. apply In_insert_range. now left.
      * right. exists fs'. repeat split; assumption.
Qed.

Lemma In_relevant_after (features : FeatureSet) (scorer : Scorer)
    (threshold : Score) (i : nat) (rel0 : FeatureSet) (f : Feature) :
  In f (relevant_after features scorer threshold i rel0)
  <-> In f rel0
      \/ exists fs, In fs (candidates features i rel0)
                    /\ (threshold <? scorer fs)%float = true /\ In f fs.
Proof.
  unfold relevant_after. rewrite eval_foreach. apply In_relevance_fold.
Qed.

(** ** The sets stay ordered *)

Lemma set_insert_HdRel (a x : Feature) (s : FeatureSet) :
  HdRel lt a s -> a < x -> HdRel lt a (set_insert x s).
Proof.
  destruct s as [|y s]; simpl; intros H L.
  - now constructor.
  - destruct (Nat.compare x y); [exact H | now constructor |].
    constructor. now inversion H.
Qed.

Lemma set_insert_Sorted (x : Feature) (s : FeatureSet) :
  Sorted lt s -> Sorted lt (set_insert x s).
Proof.
  induction s as [|y s IH]; simpl; intros H.
  - repeat constructor.
  - destruct (Nat.compare_spec x y) as [E|L|G].
    + exact H.
    + constructor; [exact H | now constructor].
    + inversion H as [|? ? Hs Hh]; subst. constructor.
      * now apply IH.
      * now apply set_insert_HdRel.
Qed.

Lemma insert_range_Sorted (l : list Feature) :
  forall s, Sorted lt s -> Sorted lt (insert_range l s).
Proof.
  unfold insert_range.
  induction l as [|x l IH]; intros s H; simpl; [exact H|].
  apply IH. now apply set_insert_Sorted.
Qed.

Lemma res_iteration_Sorted (features : FeatureSet) (scorer : Scorer)
    (threshold : Score) (remove_red : bool) (st : loop_state) (i : nat) :
  Sorted lt (res st) ->
  Sorted lt (res (eval scorer (iteration features threshold remove_red st i))).
Proof.
  intros H. rewrite eval_iteration. simpl.
  destruct remove_red; now apply insert_range_Sorted.
Qed.

Lemma res_state_after_Sorted (features : FeatureSet) (scorer : Scorer)
    (threshold : Score) (remove_red : bool) (k : nat) :
  Sorted lt (res (state_after features scorer threshold remove_red k)).
Proof.
  induction k as [|k IH].
  - rewrite state_after_0. constructor.
  - rewrite state_after_S. now apply res_iteration_Sorted.
Qed.

(** ** Comparisons of scores *)

Lemma SFltb_irrefl (f : spec_float) : SFltb f f = false.
Proof.
  unfold SFltb.
  destruct f as [s|s| |s m e]; simpl; try reflexivity.
  - destruct s; reflexivity.
  - destruct s; rewrite Z.compare_refl, Pos.compare_cont_refl; reflexivity.
Qed.

Lemma SFeqb_SFltb (f g : spec_float) :
  SFeqb f g = true -> SFltb f g = false /\ SFltb g f = false.
Proof.
  unfold SFeqb, SFltb.
  destruct f as [s|s| |s m e], g as [t|t| |t n d]; simpl;
    try discriminate; try (split; reflexivity);
    try (destruct s; discriminate); try (destruct t; discriminate).
  - destruct s, t; try discriminate; split; reflexivity.
  - destruct s, t; try discriminate.
    + destruct (Z.compare_spec e d) as [E|L|G]; try discriminate. subst d.
      rewrite Z.compare_refl.
      destruct (Pos.compare_cont Eq m n) eqn:C; try discriminate.
      apply Pos.compare_eq in C. subst n.
      rewrite Pos.compare_cont_refl. split; reflexivity.
    + destruct (Z.compare_spec e d) as [E|L|G]; try discriminate. subst d.
      rewrite Z.compare_refl.
      destruct (Pos.compare_cont Eq m n) eqn:C; try discriminate.
      apply Pos.compare_eq in C. subst n.
      rewrite Pos.compare_cont_refl. split; reflexivity.
Qed.

Lemma same_score_not_less (x y : Score) :
  same_score x y -> (x <? y)%float = false /\ (y <? x)%float = false.
Proof.
  intros [->|E].
  - rewrite ltb_spec. split; apply SFltb_irrefl.
  - rewrite eqb_spec in E. rewrite !ltb_spec. now apply SFeqb_SFltb.
Qed.

(** ** Invariants of the loop *)

Section Invariants.

Variable features : FeatureSet.
Variable scorer : Scorer.
Variable threshold : Score.

Local Abbreviation after := (state_after features scorer threshold).

Lemma rel_state_after_S (remove_red : bool) (k : nat) :
  rel (after remove_red (S k))
  = relevant_after features scorer threshold (S k) (rel (after remove_red k)).
Proof.
  rewrite state_after_S, eval_iteration. reflexivity.
Qed.

Lemma res_state_after_S (remove_red : bool) (k : nat) :
  res (after remove_red (S k))
  = let rel' := rel (after remove_red (S k)) in
    if remove_red
    then insert_range
           (set_difference rel' (redundant_in scorer threshold (S k) rel'))
           (res (after remove_red k))
    else insert_range rel' (res (after remove_red k)).
Proof.
  rewrite (state_after_S features scorer threshold remove_red k).
  rewrite eval_iteration. reflexivity.
Qed.

Lemma In_rel_state_after (remove_red : bool) (k : nat) (f : Feature) :
  In f (rel (after remove_red k))
  <-> exists j, 1 <= j <= k
                /\ confirmed_at features scorer threshold remove_red j f.
Proof.
  induction k as [|k IH].
  - rewrite state_after_0. simpl. split; [intros []|].
    intros [j [Hj _]]. lia.
  - rewrite rel_state_after_S, In_relevant_after, IH. split.
    + intros [[j [Hj Hc]]|Hc].
      * exists j. split; [lia | exact Hc].
      * exists (S k). split; [lia|]. unfold confirmed_at, tested_at.
        replace (S k - 1) with k by lia. exact Hc.
    + intros [j [Hj Hc]]. destruct (Nat.eq_dec j (S k)) as [->|Hn].
      * right. unfold confirmed_at, tested_at in Hc.
        replace (S k - 1) with k in Hc by lia. exact Hc.
      * left. exists j. split; [lia | exact Hc].
Qed.

Lemma rel_state_after_tested (remove_red : bool) (k : nat) :
  rel (after remove_red (S k))
  = eval scorer
      (foreach (tested_at features scorer threshold remove_red (S k))
               (relevance_test threshold) (rel (after remove_red k))).
Proof.
  rewrite rel_state_after_S. unfold relevant_after, tested_at.
  now replace (S k - 1) with k by lia.
Qed.

Lemma tested_at_incl (remove_red : bool) (i : nat) (fs : FeatureSet)
    (f : Feature) :
  In fs (tested_at features scorer threshold remove_red i) -> In f fs ->
  In f features
  /\ ~ In f (rel (after remove_red (i - 1))).
Proof.
  unfold tested_at, candidates. intros Hfs Hf.
  apply In_powerset in Hfs. destruct Hfs as [Hi _].
  apply In_tf. now apply Hi.
Qed.

Lemma rel_incl_features (remove_red : bool) (k : nat) :
  incl (rel (after remove_red k)) features.
Proof.
  intros f Hf. apply In_rel_state_after in Hf.
  destruct Hf as [j [_ [fs [Hfs [_ Hin]]]]].
  now apply (tested_at_incl remove_red j fs f).
Qed.

Lemma rel_monotone (remove_red : bool) (k k' : nat) :
  k <= k' -> incl (rel (after remove_red k)) (rel (after remove_red k')).
Proof.
  intros Hk f Hf. apply In_rel_state_after in Hf. apply In_rel_state_after.
  destruct Hf as [j [Hj Hc]]. exists j. split; [lia | exact Hc].
Qed.

Lemma res_step (remove_red : bool) (k : nat) :
  incl (res (after remove_red k)) (res (after remove_red (S k))).
Proof.
  intros f Hf. rewrite res_state_after_S. cbv zeta.
  destruct remove_red; apply In_insert_range; now right.
Qed.

Lemma res_monotone (remove_red : bool) (k k' : nat) :
  k <= k' -> incl (res (after remove_red k)) (res (after remove_red k')).
Proof.
  induction 1 as [|k' Hk IH]; [apply incl_refl|].
  eapply incl_tran; [exact IH | apply res_step].
Qed.

Lemma res_incl_rel (remove_red : bool) (k : nat) :
  incl (res (after remove_red k)) (rel (after remove_red k)).
Proof.
  induction k as [|k IH]; intros f Hf.
  - rewrite state_after_0 in Hf. destruct Hf.
  - rewrite res_state_after_S in Hf. cbv zeta in Hf.
    destruct remove_red; apply In_insert_range in Hf;
      destruct Hf as [Hf|Hf];
      try (apply (rel_monotone _ (Nat.le_succ_diag_r k)); now apply IH).
    + now apply In_set_difference in Hf.
    + exact Hf.
Qed.

Lemma rel_independent_of_remove_red (k : nat) :
  rel (after true k) = rel (after false k).
Proof.
  induction k as [|k IH]; [reflexivity|].
  rewrite !rel_state_after_S. now rewrite IH.
Qed.

Lemma res_remove_red_incl (k : nat) :
  incl (res (after true k)) (res (after false k)).
Proof.
  induction k as [|k IH]; intros f Hf.
  - exact Hf.
  - rewrite res_state_after_S in Hf. rewrite res_state_after_S.
    cbv zeta in *. apply In_insert_range in Hf. apply In_insert_range.
    destruct Hf as [Hf|Hf]; [left | right; now apply IH].
    apply In_set_difference in Hf.
    rewrite <- rel_independent_of_remove_red. tauto.
Qed.

End Invariants.

(** ** The first pass *)

Lemma In_rel_first_pass (features : FeatureSet) (scorer : Scorer)
    (threshold : Score) (remove_red : bool) (f : Feature) :
  In f (rel (state_after features scorer threshold remove_red 1))
  <-> In f features /\ (threshold <? scorer [f])%float = true.
Proof.
  rewrite rel_state_after_S, In_relevant_after, state_after_0.
  unfold candidates. rewrite powerset_singletons. simpl rel. split.
  - intros [[]|[fs [Hfs [Hs Hf]]]].
    apply in_map_iff in Hfs. destruct Hfs as [x [<- Hx]].
    destruct Hf as [<-|[]]. apply In_tf in Hx. tauto.
  - intros [Hf Hs]. right. exists [f]. repeat split.
    + apply in_map_iff. exists f. split; [reflexivity|].
      apply In_tf. split; [exact Hf | intros []].
    + exact Hs.
    + now left.
Qed.

(** C2: with [max_size = 1] and [remove_red = false] the result is exactly
    the set of the features of the pool whose singleton scores strictly above
    the threshold: it is an ordered set without repetition, and a feature is
    in it if and only if it is in the pool and [scorer {f} > threshold]. *)
Theorem single_pass_selects_relevant_singletons (features : FeatureSet)
    (scorer : Scorer) (threshold : Score) :
  Sorted lt (incremental_selection features scorer threshold 1 false)
  /\ forall f,
       In f (incremental_selection features scorer threshold 1 false)
       <-> In f features /\ (threshold <? scorer [f])%float = true.
Proof.
  rewrite incremental_selection_eval. split.
  - apply res_state_after_Sorted.
  - intros f. rewrite res_state_after_S. cbv zeta.
    rewrite In_insert_range, In_rel_first_pass, state_after_0. simpl.
    tauto.
Qed.

(** C3, the claim as it stands fails: a feature whose singleton score equals
    the threshold exactly is in the result when a pair it belongs to is
    relevant. *)
Lemma singleton_at_threshold_selected_in_pair :
  pair_score [0] = 0.5%float
  /\ In 0 (incremental_selection [0; 1] pair_score 0.5%float 2 false).
Proof.
  split; [reflexivity|]. vm_compute. now left.
Qed.

(** C3 (amended): the relevance and the redundancy tests are strict.  A
    candidate whose score equals the threshold is not marked relevant; a
    feature whose singleton score equals the threshold is not in the result
    of a call with [max_size = 1]; a feature whose score difference equals
    the threshold is not marked redundant by that test, and a feature the
    scan of a candidate marks has a score difference strictly below the
    threshold. *)
Theorem strict_relevance_and_redundancy (scorer : Scorer) (threshold : Score) :
  (forall rel0 fs,
      same_score (scorer fs) threshold ->
      eval scorer (relevance_test threshold rel0 fs) = rel0)
  /\ (forall features remove_red f,
         same_score (scorer [f]) threshold ->
         ~ In f (incremental_selection features scorer threshold 1 remove_red))
  /\ (forall fs f l,
         same_score (scorer fs - scorer (erase f fs))%float threshold ->
         eval scorer (find_redundant threshold fs (f :: l))
         = eval scorer (find_redundant threshold fs l))
  /\ (forall fs l f,
         eval scorer (find_redundant threshold fs l) = Some f ->
         (scorer fs - scorer (erase f fs) <? threshold)%float = true).
Proof.
  repeat split.
  - intros rel0 fs H. rewrite eval_relevance_test.
    apply same_score_not_less in H. destruct H as [_ ->]. reflexivity.
  - intros features remove_red f H Hf.
    rewrite incremental_selection_eval in Hf.
    apply res_incl_rel, In_rel_first_pass in Hf.
    apply same_score_not_less in H. destruct H as [_ H]. destruct Hf.
    congruence.
  - intros fs f l H. simpl.
    apply same_score_not_less in H. destruct H as [-> _]. reflexivity.
  - intros fs l. induction l as [|g l IH]; intros f H; simpl in H.
    + discriminate.
    + destruct (scorer fs - scorer (erase g fs) <? threshold)%float eqn:E.
      * injection H as <-. exact E.
      * now apply IH.
Qed.

Lemma strict_relevance_and_redundancy_witness :
  same_score (scenario_score [2]) 0.5%float
  /\ eval scenario_score (relevance_test 0.5%float [0] [2]) = [0]
  /\ (In 2 (incremental_selection [0; 1; 2] scenario_score 0.5%float 1 false)
      -> False).
Proof.
  assert (H : same_score (scenario_score [2]) 0.5%float) by (left; reflexivity).
  split; [exact H|].
  destruct (strict_relevance_and_redundancy scenario_score 0.5%float)
    as [H1 [H2 _]].
  split.
  - exact (H1 [0] [2] H).
  - exact (H2 [0; 1; 2] false 2 H).
Defined.

(** C4: for the same pool, scorer, threshold and [max_size], every feature
    of the result with [remove_red = true] is in the result with
    [remove_red = false]. *)
Theorem remove_red_result_is_subset (features : FeatureSet) (scorer : Scorer)
    (threshold : Score) (max_size : nat) (f : Feature) :
  In f (incremental_selection features scorer threshold max_size true) ->
  In f (incremental_selection features scorer threshold max_size false).
Proof.
  rewrite !incremental_selection_eval. apply res_remove_red_incl.
Qed.

Lemma remove_red_result_is_subset_witness :
  In 1 (incremental_selection [0; 1] flat_score 0.5%float 1 false).
Proof.
  apply (@remove_red_result_is_subset [0; 1] flat_score 0.5%float 1 1).
  vm_compute. now left.
Defined.

(** C5: with [remove_red = false], a feature of the result for [max_size = m]
    is in the result for every [max_size = m'] with [m <= m']. *)
Theorem result_monotone_in_max_size (features : FeatureSet) (scorer : Scorer)
    (threshold : Score) (m m' : nat) (f : Feature) :
  m <= m' ->
  In f (incremental_selection features scorer threshold m false) ->
  In f (incremental_selection features scorer threshold m' false).
Proof.
  intros Hm. rewrite !incremental_selection_eval. now apply res_monotone.
Qed.

Lemma result_monotone_in_max_size_witness :
  In 0 (incremental_selection [0; 1; 2] scenario_score 0.5%float 3 false).
Proof.
  apply (@result_monotone_in_max_size [0; 1; 2] scenario_score 0.5%float 1 3 0).
  - lia.
  - vm_compute. now left.
Defined.

(** C6: at iteration [i] the candidate subsets tested for relevance are the
    subsets of cardinality [i] of [tf], and [tf] is the pool minus every
    feature confirmed relevant at an earlier iteration: a candidate holds
    features of the pool only, none of them confirmed relevant before. *)
Theorem candidates_avoid_confirmed_features (features : FeatureSet)
    (scorer : Scorer) (threshold : Score) (remove_red : bool) (i : nat) :
  tested_at features scorer threshold remove_red i
  = powerset (tf_at features scorer threshold remove_red i) i
  /\ (forall x,
         In x (tf_at features scorer threshold remove_red i)
         <-> In x features
             /\ forall j, 1 <= j < i ->
                          ~ confirmed_at features scorer threshold remove_red j x)
  /\ (forall fs f,
         In fs (tested_at features scorer threshold remove_red i) ->
         In f fs ->
         In f features
         /\ forall j, 1 <= j < i ->
                      ~ confirmed_at features scorer threshold remove_red j f).
Proof.
  assert (Htf : forall x,
             In x (tf_at features scorer threshold remove_red i)
             <-> In x features
                 /\ forall j, 1 <= j < i ->
                     ~ confirmed_at features scorer threshold remove_red j x).
  { intros x. unfold tf_at. rewrite In_tf, In_rel_state_after. split.
    - intros [Hx Hn]. split; [exact Hx|]. intros j Hj Hc. apply Hn.
      exists j. split; [lia | exact Hc].
    - intros [Hx Hn]. split; [exact Hx|]. intros [j [Hj Hc]].
      apply (Hn j); [lia | exact Hc]. }
  split; [reflexivity|]. split; [exact Htf|].
  intros fs f Hfs Hf. apply Htf.
  unfold tested_at, candidates in Hfs. apply In_powerset in Hfs.
  destruct Hfs as [Hi _]. now apply Hi.
Qed.

Lemma candidates_avoid_confirmed_features_witness :
  In [1; 2] (tested_at [0; 1; 2] scenario_score 0.5%float false 2)
  /\ In 1 [0; 1; 2]
  /\ forall j, 1 <= j < 2 ->
               ~ confirmed_at [0; 1; 2] scenario_score 0.5%float false j 1.
Proof.
  assert (H : In [1; 2] (tested_at [0; 1; 2] scenario_score 0.5%float false 2))
    by (vm_compute; now left).
  split; [exact H|].
  destruct (candidates_avoid_confirmed_features
              [0; 1; 2] scenario_score 0.5%float false 2) as [_ [_ Hc]].
  apply (Hc [1; 2] 1 H). simpl. now left.
Defined.

(** ** The result set during a call *)

(** C8: at every iteration of one call the result set [res] holds only
    features of the pool, and a feature that is in [res] after some iteration
    is in the set the call returns. *)
Theorem res_within_pool_and_kept (features : FeatureSet) (scorer : Scorer)
    (threshold : Score) (max_size : nat) (remove_red : bool) (k : nat)
    (f : Feature) :
  k <= max_size ->
  In f (res (state_after features scorer threshold remove_red k)) ->
  In f features
  /\ In f (incremental_selection features scorer threshold max_size remove_red).
Proof.
  intros Hk Hf. split.
  - now apply (rel_incl_features features scorer threshold remove_red k),
              res_incl_rel.
  - rewrite incremental_selection_eval.
    now apply (res_monotone features scorer threshold remove_red Hk).
Qed.

Lemma res_within_pool_and_kept_witness :
  In 0 [0; 1; 2]
  /\ In 0 (incremental_selection [0; 1; 2] scenario_score 0.5%float 2 true).
Proof.
  apply (@res_within_pool_and_kept
           [0; 1; 2] scenario_score 0.5%float 2 true 1 0).
  - lia.
  - vm_compute. now left.
Defined.

(** ** The relevant set is not cleared *)

(** C1, on the code: [rel.empty()] leaves [rel] as it is.  On the pool
    [{0, 1}] with [flat_score], iteration 2 has no candidate at all, yet after
    it [rel] still holds the two features of iteration 1; the feature 0, which
    the redundancy pass of iteration 1 had discarded, is put into the result
    by iteration 2. *)
Theorem rel_not_cleared_between_iterations :
  tested_at [0; 1] flat_score 0.5%float true 2 = []
  /\ rel (fst (run_selection [0; 1] flat_score 0.5%float 2 true)) = [0; 1]
  /\ incremental_selection [0; 1] flat_score 0.5%float 1 true = [1]
  /\ incremental_selection [0; 1] flat_score 0.5%float 2 true = [0; 1].
Proof.
  repeat split; vm_compute; reflexivity.
Qed.

(** ** How often the scorer is invoked *)

Lemma find_entry_None (x : FeatureSet) (es : list (FeatureSet * Score)) :
  find_entry x es = None -> ~ In x (map fst es).
Proof.
  induction es as [|[k w] es IH]; simpl; [tauto|].
  destruct (fs_eqb k x) eqn:E; [discriminate|].
  intros H [Hk|Hk].
  - apply fs_eqb_eq in Hk. congruence.
  - now apply IH.
Qed.

Lemma find_entry_Some_perm (x : FeatureSet) (es : list (FeatureSet * Score))
    (v : Score) :
  find_entry x es = Some v ->
  Permutation (x :: map fst (remove_entry x es)) (map fst es).
Proof.
  induction es as [|[k w] es IH]; simpl; [discriminate|].
  destruct (fs_eqb k x) eqn:E.
  - apply fs_eqb_eq in E. subst k. reflexivity.
  - intros H. simpl. rewrite perm_swap. apply perm_skip. now apply IH.
Qed.

Lemma length_nodup_cons (x : FeatureSet) (l : list FeatureSet) :
  length (nodup fs_eq_dec l) <= length (nodup fs_eq_dec (x :: l)).
Proof.
  simpl. destruct (in_dec fs_eq_dec x l); simpl; lia.
Qed.

Lemma lookup_capacity (scorer : Scorer) (x : FeatureSet) (c : lru_cache) :
  capacity (snd (lookup scorer x c)) = capacity c.
Proof.
  unfold lookup. destruct (find_entry x (entries c)); reflexivity.
Qed.

Lemma lookup_lookups (scorer : Scorer) (x : FeatureSet) (c : lru_cache) :
  lookups (snd (lookup scorer x c)) = x :: lookups c.
Proof.
  unfold lookup. destruct (find_entry x (entries c)); reflexivity.
Qed.

Lemma lookup_no_eviction (scorer : Scorer) (x : FeatureSet) (c : lru_cache) :
  (within_capacity c -> no_eviction_yet c) ->
  within_capacity (snd (lookup scorer x c)) ->
  no_eviction_yet (snd (lookup scorer x c)).
Proof.
  unfold within_capacity. rewrite lookup_capacity, lookup_lookups.
  intros Hinv Hcap.
  destruct Hinv as [Hnd [Hperm Hincl]].
  { pose proof (length_nodup_cons x (lookups c)). unfold within_capacity. lia. }
  unfold lookup, no_eviction_yet.
  destruct (find_entry x (entries c)) as [v|] eqn:E; simpl.
  - repeat split.
    + exact Hnd.
    + rewrite (find_entry_Some_perm _ _ E). exact Hperm.
    + now apply incl_tl.
  - assert (Hx : ~ In x (misses c)).
    { intros Hx. apply (find_entry_None _ _ E).
      apply (Permutation_in x (Permutation_sym Hperm) Hx). }
    assert (Hnd' : NoDup (x :: misses c)) by now constructor.
    assert (Hincl' : incl (x :: misses c) (x :: lookups c)).
    { intros y [<-|Hy]; [now left | right; now apply Hincl]. }
    assert (Hlen : length (x :: misses c) <= capacity c).
    { etransitivity; [|exact Hcap].
      apply NoDup_incl_length; [exact Hnd'|].
      intros y Hy. apply nodup_In. now apply Hincl'. }
    repeat split; try assumption.
    rewrite firstn_all2.
    + simpl. now apply perm_skip.
    + simpl in *. rewrite <- (length_map fst (entries c)).
      rewrite (Permutation_length Hperm). exact Hlen.
Qed.

Lemma run_cached_capacity {A : Type} (scorer : Scorer) (p : cached A) :
  forall c, capacity (snd (run_cached scorer p c)) = capacity c.
Proof.
  induction p as [a|fs k IH]; intros c; simpl; [reflexivity|].
  pose proof (lookup_capacity scorer fs c) as Hc.
  destruct (lookup scorer fs c) as [v c']. rewrite IH. exact Hc.
Qed.

Lemma run_cached_no_eviction {A : Type} (scorer : Scorer) (p : cached A) :
  forall c,
    (within_capacity c -> no_eviction_yet c) ->
    within_capacity (snd (run_cached scorer p c)) ->
    no_eviction_yet (snd (run_cached scorer p c)).
Proof.
  induction p as [a|fs k IH]; intros c Hinv; simpl; [exact Hinv|].
  pose proof (@lookup_no_eviction scorer fs c Hinv) as Hstep.
  destruct (lookup scorer fs c) as [v c']. simpl in Hstep.
  now apply IH.
Qed.

(** * Further properties of [incremental_selection] *)

(** ** What a call asks the scorer *)

Lemma queries_bind {A B : Type} (scorer : Scorer) (m : cached A)
    (k : A -> cached B) :
  queries scorer (bind m k)
  = queries scorer m ++ queries scorer (k (eval scorer m)).
Proof.
  induction m as [a|fs h IH]; simpl; [reflexivity | now rewrite IH].
Qed.

Lemma queries_foreach_app {A B : Type} (scorer : Scorer)
    (body : A -> B -> cached A) (l1 l2 : list B) :
  forall a,
    queries scorer (foreach (l1 ++ l2) body a)
    = queries scorer (foreach l1 body a)
      ++ queries scorer (foreach l2 body (eval scorer (foreach l1 body a))).
Proof.
  induction l1 as [|x l1 IH]; intros a; simpl; [reflexivity|].
  rewrite !queries_bind, IH, eval_bind, app_assoc. reflexivity.
Qed.

Lemma run_cached_lookups {A : Type} (scorer : Scorer) (p : cached A) :
  forall c, consistent scorer c ->
            lookups (snd (run_cached scorer p c))
            = rev (queries scorer p) ++ lookups c.
Proof.
  induction p as [a|fs k IH]; intros c Hc; simpl; [reflexivity|].
  pose proof (@lookup_value scorer fs c Hc) as Hv.
  pose proof (@lookup_consistent scorer fs c Hc) as Hc'.
  pose proof (lookup_lookups scorer fs c) as Hl.
  destruct (lookup scorer fs c) as [v c']. simpl in Hv, Hc', Hl. subst v.
  rewrite (IH _ _ Hc'), Hl, <- app_assoc. reflexivity.
Qed.

Lemma run_selection_lookups (features : FeatureSet) (scorer : Scorer)
    (threshold : Score) (max_size : nat) (remove_red : bool) :
  lookups (snd (run_selection features scorer threshold max_size remove_red))
  = rev (queries scorer
                 (selection_loop features threshold remove_red max_size)).
Proof.
  unfold run_selection.
  rewrite run_cached_lookups by apply new_cache_consistent.
  apply app_nil_r.
Qed.

Lemma queries_foreach_Forall {A B : Type} (scorer : Scorer)
    (P : FeatureSet -> Prop) (I : A -> Prop) (body : A -> B -> cached A)
    (l : list B) :
  (forall a x, In x l -> I a ->
               Forall P (queries scorer (body a x))
               /\ I (eval scorer (body a x))) ->
  forall a, I a ->
            Forall P (queries scorer (foreach l body a))
            /\ I (eval scorer (foreach l body a)).
Proof.
  induction l as [|x l IH]; intros Hbody a Ha; simpl.
  - split; [constructor | exact Ha].
  - destruct (Hbody a x (or_introl eq_refl) Ha) as [Hq Hi].
    destruct (IH (fun a' y Hy => Hbody a' y (or_intror Hy)) _ Hi) as [Hq' Hi'].
    rewrite queries_bind, eval_bind. split; [|exact Hi'].
    apply Forall_app. split; assumption.
Qed.

(** ** Ordered sets have no repetition *)

Lemma Sorted_lt_NoDup (l : list Feature) : Sorted lt l -> NoDup l.
Proof.
  intros H. apply Sorted_StronglySorted in H; [|exact Nat.lt_trans].
  induction H as [|x l Hl IH Hx]; constructor; [|exact IH].
  intros Hin. rewrite Forall_forall in Hx. specialize (Hx x Hin). lia.
Qed.

Lemma tf_Sorted (features rel0 : FeatureSet) : Sorted lt (tf features rel0).
Proof.
  unfold tf. apply insert_range_Sorted. constructor.
Qed.

Lemma relevant_after_Sorted (features : FeatureSet) (scorer : Scorer)
    (threshold : Score) (i : nat) (rel0 : FeatureSet) :
  Sorted lt rel0 -> Sorted lt (relevant_after features scorer threshold i rel0).
Proof.
  unfold relevant_after. rewrite eval_foreach.
  generalize (candidates features i rel0) as fss. intros fss. revert rel0.
  induction fss as [|fs fss IH]; intros rel0 H; cbn [fold_left]; [exact H|].
  apply IH. rewrite eval_relevance_test.
  destruct (threshold <? scorer fs)%float; [|exact H].
  now apply insert_range_Sorted.
Qed.

Lemma rel_state_after_Sorted (features : FeatureSet) (scorer : Scorer)
    (threshold : Score) (remove_red : bool) (k : nat) :
  Sorted lt (rel (state_after features scorer threshold remove_red k)).
Proof.
  induction k as [|k IH].
  - rewrite state_after_0. constructor.
  - rewrite rel_state_after_S. now apply relevant_after_Sorted.
Qed.

Lemma subset_of_length (fs s : FeatureSet) :
  subset_of fs s -> length fs <= length s.
Proof.
  induction 1; simpl; lia.
Qed.

Lemma subset_of_NoDup (fs s : FeatureSet) :
  subset_of fs s -> NoDup s -> NoDup fs.
Proof.
  induction 1 as [|x fs s H IH|x fs s H IH]; intros Hs.
  - constructor.
  - inversion Hs as [|? ? Hx Hs']; subst. constructor; [|now apply IH].
    intros Hin. apply Hx. now apply (subset_of_incl H).
  - inversion Hs; subst. now apply IH.
Qed.

Lemma powerset_too_large (s : FeatureSet) (n : nat) :
  length s < n -> powerset s n = [].
Proof.
  intros H. destruct (powerset s n) as [|fs l] eqn:E; [reflexivity|].
  assert (Hin : In fs (powerset s n)) by (rewrite E; now left).
  apply In_powerset_iff in Hin. destruct Hin as [Hs Hl].
  apply subset_of_length in Hs. lia.
Qed.

Lemma erase_incl (f : Feature) (fs : FeatureSet) : incl (erase f fs) fs.
Proof.
  intros x Hx. unfold erase in Hx. now apply filter_In in Hx.
Qed.

Lemma erase_absent (f : Feature) (fs : FeatureSet) :
  ~ In f fs -> erase f fs = fs.
Proof.
  induction fs as [|x fs IH]; intros H; simpl; [reflexivity|].
  destruct (Nat.eqb_spec x f) as [->|Hn]; simpl.
  - exfalso. apply H. now left.
  - rewrite IH; [reflexivity|]. intros Hin. apply H. now right.
Qed.

Lemma erase_length (f : Feature) (fs : FeatureSet) :
  NoDup fs -> In f fs -> S (length (erase f fs)) = length fs.
Proof.
  induction 1 as [|x fs Hx Hnd IH]; intros Hin; [destruct Hin|].
  simpl. destruct (Nat.eqb_spec x f) as [->|Hn]; simpl.
  - now rewrite erase_absent.
  - destruct Hin as [->|Hin]; [congruence|]. now rewrite IH.
Qed.

(** ** The relevance pass alone *)

Lemma queries_relevance_pass (scorer : Scorer) (threshold : Score)
    (fss : list FeatureSet) :
  forall rel0,
    queries scorer (foreach fss (relevance_test threshold) rel0) = fss.
Proof.
  induction fss as [|fs fss IH]; intros rel0; [reflexivity|].
  cbn [foreach]. rewrite queries_bind, IH. reflexivity.
Qed.

Lemma queries_iteration_relevance (features : FeatureSet) (scorer : Scorer)
    (threshold : Score) (st : loop_state) (i : nat) :
  queries scorer (iteration features threshold false st i)
  = candidates features i (rel st).
Proof.
  unfold iteration. rewrite queries_bind, queries_relevance_pass.
  apply app_nil_r.
Qed.

Lemma queries_selection_relevance (features : FeatureSet) (scorer : Scorer)
    (threshold : Score) (m : nat) :
  queries scorer (selection_loop features threshold false m)
  = concat (map (tested_at features scorer threshold false) (seq 1 m)).
Proof.
  induction m as [|m IH]; [reflexivity|].
  unfold selection_loop in *.
  rewrite seq_S, queries_foreach_app, IH, map_app, concat_app.
  f_equal. cbn [foreach map concat]. rewrite queries_bind.
  rewrite queries_iteration_relevance. cbn [queries].
  rewrite !app_nil_r. unfold tested_at, state_after, selection_loop.
  now replace (1 + m - 1) with m by lia.
Qed.

Lemma tested_at_length (features : FeatureSet) (scorer : Scorer)
    (threshold : Score) (remove_red : bool) (i : nat) (fs : FeatureSet) :
  In fs (tested_at features scorer threshold remove_red i) -> length fs = i.
Proof.
  unfold tested_at, candidates. intros H. now apply In_powerset in H.
Qed.

Lemma tested_at_NoDup (features : FeatureSet) (scorer : Scorer)
    (threshold : Score) (remove_red : bool) (i : nat) :
  NoDup (tested_at features scorer threshold remove_red i).
Proof.
  unfold tested_at, candidates. apply powerset_NoDup, Sorted_lt_NoDup, tf_Sorted.
Qed.

Lemma tested_upto_NoDup (features : FeatureSet) (scorer : Scorer)
    (threshold : Score) (remove_red : bool) (m : nat) :
  NoDup (concat (map (tested_at features scorer threshold remove_red)
                     (seq 1 m))).
Proof.
  induction m as [|m IH]; [constructor|].
  rewrite seq_S, map_app, concat_app. cbn [map concat]. rewrite app_nil_r.
  apply NoDup_app; [exact IH | apply tested_at_NoDup|].
  intros fs H1 H2. apply tested_at_length in H2.
  apply in_concat in H1. destruct H1 as [l [Hl Hfs]].
  apply in_map_iff in Hl. destruct Hl as [j [<- Hj]].
  apply tested_at_length in Hfs. apply in_seq in Hj. lia.
Qed.

Lemma relevant_after_incl (features : FeatureSet) (scorer : Scorer)
    (threshold : Score) (i : nat) (rel0 : FeatureSet) :
  incl rel0 features ->
  incl (relevant_after features scorer threshold i rel0) features.
Proof.
  intros H f Hf. apply In_relevant_after in Hf.
  destruct Hf as [Hf|[fs [Hfs [_ Hin]]]]; [now apply H|].
  unfold candidates in Hfs. apply In_powerset in Hfs.
  destruct Hfs as [Hi _]. apply Hi, In_tf in Hin. tauto.
Qed.

(** ** What the result is made of *)

Lemma res_relevance_only (features : FeatureSet) (scorer : Scorer)
    (threshold : Score) (k : nat) (f : Feature) :
  In f (res (state_after features scorer threshold false k))
  <-> In f (rel (state_after features scorer threshold false k)).
Proof.
  split; [apply res_incl_rel|]. destruct k as [|k]; [intros []|].
  intros H. rewrite res_state_after_S. cbv zeta.
  apply In_insert_range. now left.
Qed.

Lemma confirmed_at_subset (features : FeatureSet) (scorer : Scorer)
    (threshold : Score) (remove_red : bool) (i : nat) (f : Feature) :
  confirmed_at features scorer threshold remove_red i f ->
  exists fs, incl fs features /\ length fs = i /\ In f fs
             /\ (threshold <? scorer fs)%float = true.
Proof.
  intros [fs [Hfs [Hs Hf]]]. exists fs.
  pose proof (tested_at_length _ _ _ _ _ _ Hfs) as Hl.
  repeat split; try assumption.
  intros x Hx.
  now apply (tested_at_incl features scorer threshold remove_red i fs x).
Qed.

(** X3: with [remove_red = false] a feature is in the result if and only if
    it belongs to a candidate that some iteration from 1 to [max_size] tested
    and found to score strictly above the threshold. *)
Theorem relevance_only_result_is_confirmed_features (features : FeatureSet)
    (scorer : Scorer) (threshold : Score) (max_size : nat) (f : Feature) :
  In f (incremental_selection features scorer threshold max_size false)
  <-> exists i, 1 <= i <= max_size
                /\ confirmed_at features scorer threshold false i f.
Proof.
  rewrite incremental_selection_eval, res_relevance_only.
  apply In_rel_state_after.
Qed.

(** X4: whatever [remove_red] is, a feature of the result belongs to a subset
    of the pool of 1 to [max_size] features whose score is strictly above the
    threshold. *)
Theorem selected_feature_has_relevant_subset (features : FeatureSet)
    (scorer : Scorer) (threshold : Score) (max_size : nat) (remove_red : bool)
    (f : Feature) :
  In f (incremental_selection features scorer threshold max_size remove_red) ->
  exists fs, incl fs features /\ 1 <= length fs <= max_size /\ In f fs
             /\ (threshold <? scorer fs)%float = true.
Proof.
  rewrite incremental_selection_eval. intros H.
  apply res_incl_rel, In_rel_state_after in H.
  destruct H as [i [Hi Hc]]. apply confirmed_at_subset in Hc.
  destruct Hc as [fs [H1 [H2 [H3 H4]]]]. exists fs.
  repeat split; try assumption; lia.
Qed.

Lemma selected_feature_has_relevant_subset_witness :
  exists fs, incl fs [0; 1; 2] /\ 1 <= length fs <= 2 /\ In 0 fs
             /\ (0.5 <? scenario_score fs)%float = true.
Proof.
  apply (@selected_feature_has_relevant_subset
           [0; 1; 2] scenario_score 0.5%float 2 true 0).
  vm_compute. now left.
Defined.

(** ** What the redundancy pass removes *)

Lemma find_redundant_Some (scorer : Scorer) (threshold : Score)
    (fs : FeatureSet) (l : list Feature) (f : Feature) :
  eval scorer (find_redundant threshold fs l) = Some f ->
  In f l /\ (scorer fs - scorer (erase f fs) <? threshold)%float = true.
Proof.
  induction l as [|g l IH]; simpl; [discriminate|].
  destruct (scorer fs - scorer (erase g fs) <? threshold)%float eqn:E.
  - intros [= <-]. split; [now left | exact E].
  - intros H. destruct (IH H) as [H1 H2]. split; [now right | exact H2].
Qed.

Lemma In_redundancy_test (scorer : Scorer) (threshold : Score)
    (red fs : FeatureSet) (f : Feature) :
  In f (eval scorer (redundancy_test threshold red fs)) ->
  In f red \/ redundant_in_subset scorer threshold fs f.
Proof.
  unfold redundancy_test.
  destruct (has_empty_intersection fs red); [|now left].
  rewrite eval_bind.
  destruct (eval scorer (find_redundant threshold fs fs)) as [g|] eqn:E;
    simpl; [|now left].
  intros H. apply In_set_insert in H. destruct H as [->|H]; [|now left].
  right. now apply find_redundant_Some in E.
Qed.

Lemma In_redundant_in (scorer : Scorer) (threshold : Score) (i : nat)
    (rel' : FeatureSet) (f : Feature) :
  In f (redundant_in scorer threshold i rel') ->
  exists fs, In fs (powerset rel' (i + 1))
             /\ redundant_in_subset scorer threshold fs f.
Proof.
  unfold redundant_in. rewrite eval_foreach.
  generalize (powerset rel' (i + 1)) as l. intros l.
  assert (G : forall red,
             In f (fold_left
                     (fun a x => eval scorer (redundancy_test threshold a x))
                     l red) ->
             In f red
             \/ exists fs, In fs l /\ redundant_in_subset scorer threshold fs f).
  { induction l as [|fs l IH]; intros red H; cbn [fold_left] in H.
    - now left.
    - apply IH in H. destruct H as [H|[gs [Hg Hr]]].
      + apply In_redundancy_test in H. destruct H as [H|H]; [now left|].
        right. exists fs. split; [now left | exact H].
      + right. exists gs. split; [now right | exact Hr]. }
  intros H. apply G in H. destruct H as [[]|H]. exact H.
Qed.

(** X5: a feature that the call with [remove_red = false] selects and the
    call with [remove_red = true] leaves out is redundant in a subset of
    [max_size + 1] features, all selected by the call with
    [remove_red = false]: taking it out of that subset lowers the score by
    strictly less than the threshold. *)
Theorem removed_feature_is_redundant_in_subset (features : FeatureSet)
    (scorer : Scorer) (threshold : Score) (max_size : nat) (f : Feature) :
  In f (incremental_selection features scorer threshold max_size false) ->
  ~ In f (incremental_selection features scorer threshold max_size true) ->
  exists fs,
    incl fs (incremental_selection features scorer threshold max_size false)
    /\ length fs = max_size + 1
    /\ redundant_in_subset scorer threshold fs f.
Proof.
  rewrite !incremental_selection_eval. intros Hf Hn.
  apply res_relevance_only in Hf.
  rewrite <- rel_independent_of_remove_red in Hf.
  destruct max_size as [|k]; [destruct Hf|].
  rewrite res_state_after_S in Hn. cbv zeta in Hn.
  rewrite In_insert_range, In_set_difference in Hn.
  set (rel' := rel (state_after features scorer threshold true (S k))) in *.
  destruct (in_dec Nat.eq_dec f (redundant_in scorer threshold (S k) rel'))
    as [Hr|Hr]; [|tauto].
  apply In_redundant_in in Hr. destruct Hr as [fs [Hfs Hr]].
  apply In_powerset in Hfs. destruct Hfs as [Hi Hl].
  exists fs. repeat split; try assumption; try apply Hr.
  intros x Hx. apply res_relevance_only.
  rewrite <- rel_independent_of_remove_red. now apply Hi.
Qed.

Lemma removed_feature_is_redundant_in_subset_witness :
  exists fs,
    incl fs (incremental_selection [0; 1] flat_score 0.5%float 1 false)
    /\ length fs = 1 + 1
    /\ redundant_in_subset flat_score 0.5%float fs 0.
Proof.
  apply (@removed_feature_is_redundant_in_subset
           [0; 1] flat_score 0.5%float 1 0).
  - vm_compute. now left.
  - vm_compute. intros [H|[]]. discriminate.
Defined.

(** X6: also with [remove_red = true], a feature of the result for
    [max_size = m] is in the result for every [max_size = m'] with
    [m <= m']. *)
Theorem remove_red_result_monotone_in_max_size (features : FeatureSet)
    (scorer : Scorer) (threshold : Score) (m m' : nat) (f : Feature) :
  m <= m' ->
  In f (incremental_selection features scorer threshold m true) ->
  In f (incremental_selection features scorer threshold m' true).
Proof.
  intros Hm. rewrite !incremental_selection_eval. now apply res_monotone.
Qed.

Lemma remove_red_result_monotone_in_max_size_witness :
  In 1 (incremental_selection [0; 1] flat_score 0.5%float 2 true).
Proof.
  apply (@remove_red_result_monotone_in_max_size
           [0; 1] flat_score 0.5%float 1 2 1).
  - lia.
  - vm_compute. now left.
Defined.

(** ** Iterations past the size of the pool *)

Lemma rel_length (features : FeatureSet) (scorer : Scorer)
    (threshold : Score) (remove_red : bool) (k : nat) :
  length (rel (state_after features scorer threshold remove_red k))
  <= length features.
Proof.
  apply NoDup_incl_length.
  - apply Sorted_lt_NoDup, rel_state_after_Sorted.
  - apply rel_incl_features.
Qed.

Lemma tf_length (features rel0 : FeatureSet) :
  length (tf features rel0) <= length features.
Proof.
  apply NoDup_incl_length.
  - apply Sorted_lt_NoDup, tf_Sorted.
  - intros x Hx. apply In_tf in Hx. tauto.
Qed.

Lemma confirmed_at_bound (features : FeatureSet) (scorer : Scorer)
    (threshold : Score) (remove_red : bool) (i : nat) (f : Feature) :
  confirmed_at features scorer threshold remove_red i f ->
  i <= length features.
Proof.
  intros [fs [Hfs _]]. unfold tested_at, candidates in Hfs.
  destruct (Nat.le_gt_cases i (length features)) as [H|H]; [exact H|].
  rewrite powerset_too_large in Hfs; [destruct Hfs|].
  pose proof (tf_length features
                (rel (state_after features scorer threshold remove_red (i - 1)))).
  lia.
Qed.

Lemma rel_stable (features : FeatureSet) (scorer : Scorer)
    (threshold : Score) (remove_red : bool) (k : nat) (f : Feature) :
  length features <= k ->
  In f (rel (state_after features scorer threshold remove_red k))
  <-> In f (rel (state_after features scorer threshold remove_red
                             (length features))).
Proof.
  intros Hk. split.
  - intros H. apply In_rel_state_after in H. apply In_rel_state_after.
    destruct H as [j [Hj Hc]]. exists j. split; [|exact Hc].
    apply confirmed_at_bound in Hc. lia.
  - now apply rel_monotone.
Qed.

Lemma res_is_rel_when_full (features : FeatureSet) (scorer : Scorer)
    (threshold : Score) (remove_red : bool) (k : nat) (f : Feature) :
  length features <= k ->
  In f (res (state_after features scorer threshold remove_red k))
  <-> In f (rel (state_after features scorer threshold remove_red k)).
Proof.
  intros Hk. destruct remove_red; [|apply res_relevance_only].
  split; [apply res_incl_rel|]. destruct k as [|k]; [intros []|].
  intros H. rewrite res_state_after_S. cbv zeta.
  apply In_insert_range. left. apply In_set_difference. split; [exact H|].
  unfold redundant_in. rewrite powerset_too_large; [intros []|].
  pose proof (rel_length features scorer threshold true (S k)). lia.
Qed.

(** X7: when [max_size] is at least the number of features of the pool,
    [remove_red] makes no difference: the calls with [remove_red = true] and
    with [remove_red = false] select the same features.  (The last iteration
    finds no subset of [max_size + 1] relevant features to test, and adds the
    whole of [rel], which line 71 has not cleared.) *)
Theorem remove_red_without_effect_on_small_pool (features : FeatureSet)
    (scorer : Scorer) (threshold : Score) (max_size : nat) (f : Feature) :
  length features <= max_size ->
  In f (incremental_selection features scorer threshold max_size true)
  <-> In f (incremental_selection features scorer threshold max_size false).
Proof.
  intros H. rewrite !incremental_selection_eval.
  rewrite !res_is_rel_when_full by exact H.
  now rewrite rel_independent_of_remove_red.
Qed.

Lemma remove_red_without_effect_on_small_pool_witness :
  In 0 (incremental_selection [0; 1] flat_score 0.5%float 2 true)
  <-> In 0 (incremental_selection [0; 1] flat_score 0.5%float 2 false).
Proof.
  apply (@remove_red_without_effect_on_small_pool
           [0; 1] flat_score 0.5%float 2 0).
  simpl. lia.
Defined.

(** X8: iterations past the size of the pool select nothing new: for
    [max_size] at least the number of features of the pool the result is the
    one for [max_size] equal to that number. *)
Theorem result_stable_past_pool_size (features : FeatureSet)
    (scorer : Scorer) (threshold : Score) (max_size : nat) (remove_red : bool)
    (f : Feature) :
  length features <= max_size ->
  In f (incremental_selection features scorer threshold max_size remove_red)
  <-> In f (incremental_selection features scorer threshold
                                  (length features) remove_red).
Proof.
  intros H. rewrite !incremental_selection_eval.
  rewrite !res_is_rel_when_full by (exact H || apply Nat.le_refl).
  now apply rel_stable.
Qed.

Lemma result_stable_past_pool_size_witness :
  In 0 (incremental_selection [0; 1; 2] scenario_score 0.5%float 5 false)
  <-> In 0 (incremental_selection [0; 1; 2] scenario_score 0.5%float
                                  (length [0; 1; 2]) false).
Proof.
  apply (@result_stable_past_pool_size
           [0; 1; 2] scenario_score 0.5%float 5 false 0).
  simpl. lia.
Defined.

(** ** Nothing relevant *)

Lemma relevance_fold_none (scorer : Scorer) (threshold : Score)
    (fss : list FeatureSet) (rel0 : FeatureSet) :
  (forall fs, In fs fss -> (threshold <? scorer fs)%float = false) ->
  fold_left (fun a fs => eval scorer (relevance_test threshold a fs)) fss rel0
  = rel0.
Proof.
  induction fss as [|fs fss IH]; intros H; cbn [fold_left]; [reflexivity|].
  rewrite eval_relevance_test, (H fs (or_introl eq_refl)).
  apply IH. intros gs Hg. apply H. now right.
Qed.

Lemma state_after_none (features : FeatureSet) (scorer : Scorer)
    (threshold : Score) (remove_red : bool) (k : nat) :
  (forall fs, incl fs features -> (threshold <? scorer fs)%float = false) ->
  state_after features scorer threshold remove_red k = mk_state [] [].
Proof.
  intros H. induction k as [|k IH]; [reflexivity|].
  rewrite state_after_S, eval_iteration, IH. cbv zeta. simpl rel. simpl res.
  assert (E : relevant_after features scorer threshold (S k) [] = []).
  { unfold relevant_after. rewrite eval_foreach. apply relevance_fold_none.
    intros fs Hfs. apply H. unfold candidates in Hfs.
    apply In_powerset in Hfs. destruct Hfs as [Hi _].
    intros x Hx. apply Hi, In_tf in Hx. tauto. }
  rewrite E. destruct remove_red; reflexivity.
Qed.

Lemma ltb_nan_l (x : float) : (nan <? x)%float = false.
Proof.
  rewrite ltb_spec. reflexivity.
Qed.

Lemma ltb_infinity_l (x : float) : (infinity <? x)%float = false.
Proof.
  rewrite ltb_spec. unfold SFltb.
  replace (Prim2SF infinity) with (S754_infinity false) by reflexivity.
  destruct (Prim2SF x) as [s|s| |s m e]; try reflexivity.
  destruct s; reflexivity.
Qed.

(** X9: when no subset of the pool scores strictly above the threshold, the
    result is empty, whatever [max_size] and [remove_red] are.  This is so
    for a threshold that is not a number, or plus infinity. *)
Theorem nothing_relevant_selects_nothing (features : FeatureSet)
    (scorer : Scorer) (threshold : Score) (max_size : nat) (remove_red : bool) :
  (forall fs, incl fs features -> (threshold <? scorer fs)%float = false) ->
  incremental_selection features scorer threshold max_size remove_red = [].
Proof.
  intros H. rewrite incremental_selection_eval, state_after_none by exact H.
  reflexivity.
Qed.

Lemma nothing_relevant_selects_nothing_witness :
  incremental_selection [0; 1; 2] scenario_score nan 2 true = []
  /\ incremental_selection [0; 1; 2] scenario_score infinity 2 true = [].
Proof.
  split.
  - apply (@nothing_relevant_selects_nothing [0; 1; 2] scenario_score nan 2 true).
    intros fs _. apply ltb_nan_l.
  - apply (@nothing_relevant_selects_nothing
             [0; 1; 2] scenario_score infinity 2 true).
    intros fs _. apply ltb_infinity_l.
Defined.

(** X10: the relevance pass does not depend on [remove_red]: after any number
    of iterations [rel] is the same set in both modes, and each iteration
    tests the same candidates. *)
Theorem relevance_pass_independent_of_remove_red (features : FeatureSet)
    (scorer : Scorer) (threshold : Score) (k : nat) :
  rel (state_after features scorer threshold true k)
  = rel (state_after features scorer threshold false k)
  /\ tested_at features scorer threshold true k
     = tested_at features scorer threshold false k.
Proof.
  split; [apply rel_independent_of_remove_red|].
  unfold tested_at. now rewrite rel_independent_of_remove_red.
Qed.

(** * The function on the machine *)

(** ** The 32-bit counter *)

Lemma uint_small (x : N) : (x <= UINT_MAX)%N -> uint x = x.
Proof.
  intros H. unfold uint. apply N.mod_small. unfold UINT_MAX in H. lia.
Qed.

Lemma uint_bound (x : N) : (uint x <= UINT_MAX)%N.
Proof.
  unfold uint, UINT_MAX.
  pose proof (N.mod_upper_bound x 4294967296). lia.
Qed.

Lemma to_nat_succ (i : N) : N.to_nat (i + 1) = S (N.to_nat i).
Proof. lia. Qed.

(** ** The machine computes what the loop over the naturals computes *)

Lemma eval_ext {A : Type} (s1 s2 : Scorer) (p : cached A) :
  (forall fs, s1 fs = s2 fs) -> eval s1 p = eval s2 p.
Proof.
  intros H. induction p as [a|fs k IH]; simpl; [reflexivity|].
  rewrite (H fs). apply IH.
Qed.

Lemma fold_left_pointwise {A B : Type} (f g : A -> B -> A) (l : list B) :
  (forall a x, f a x = g a x) ->
  forall a, fold_left f l a = fold_left g l a.
Proof.
  intros H. induction l as [|x l IH]; intros a; simpl; [reflexivity|].
  now rewrite H, IH.
Qed.

Lemma eval_find_redundant_on (pf : platform) (scorer : Scorer)
    (threshold : Score) (fs : FeatureSet) (l : list Feature) :
  eval scorer (find_redundant_on pf threshold fs l)
  = eval scorer (find_redundant threshold fs l).
Proof.
  induction l as [|f l IH]; [reflexivity|].
  cbn [find_redundant_on find_redundant]. destruct (left_first pf); simpl;
    destruct (scorer fs - scorer (erase f fs) <? threshold)%float;
    (reflexivity || exact IH).
Qed.

Lemma eval_redundancy_test_on (pf : platform) (scorer : Scorer)
    (threshold : Score) (red fs : FeatureSet) :
  eval scorer (redundancy_test_on pf threshold red fs)
  = eval scorer (redundancy_test threshold red fs).
Proof.
  unfold redundancy_test_on, redundancy_test.
  destruct (has_empty_intersection fs red); [|reflexivity].
  now rewrite !eval_bind, eval_find_redundant_on.
Qed.

Lemma eval_iteration_on (pf : platform) (features : FeatureSet)
    (scorer : Scorer) (threshold : Score) (remove_red : bool)
    (st : loop_state) (i : N) :
  (i < UINT_MAX)%N ->
  eval scorer (iteration_on pf features threshold remove_red st i)
  = eval scorer (iteration features threshold remove_red st (N.to_nat i)).
Proof.
  intros Hi. unfold iteration_on, iteration. rewrite !eval_bind.
  destruct remove_red; [|reflexivity].
  rewrite !eval_bind, !eval_foreach.
  rewrite uint_small by lia.
  replace (N.to_nat (i + 1)) with (N.to_nat i + 1) by lia.
  rewrite (fold_left_pointwise _ _ _
             (eval_redundancy_test_on pf scorer threshold)).
  reflexivity.
Qed.

Lemma eval_for_loop (pf : platform) (features : FeatureSet) (scorer : Scorer)
    (threshold : Score) (remove_red : bool) (max_size : N) :
  (max_size < UINT_MAX)%N ->
  forall k i st fuel,
    (1 <= i)%N -> (i + N.of_nat k = max_size + 1)%N ->
    eval scorer (for_loop pf features threshold remove_red fuel max_size i st)
    = if k <? fuel
      then Some (eval scorer
                      (foreach (seq (N.to_nat i) k)
                               (iteration features threshold remove_red) st))
      else None.
Proof.
  intros Hm. induction k as [|k IH]; intros i st [|fuel] Hi Hk;
    try reflexivity.
  - cbn [for_loop]. replace (i <=? max_size)%N with false; [reflexivity|].
    symmetry. apply N.leb_gt. lia.
  - cbn [for_loop]. replace (i <=? max_size)%N with true.
    2:{ symmetry. apply N.leb_le. lia. }
    rewrite eval_bind, eval_iteration_on by lia.
    rewrite uint_small by lia.
    rewrite IH by lia.
    rewrite to_nat_succ. cbn [seq foreach]. rewrite eval_bind.
    reflexivity.
Qed.

Lemma eval_for_loop_never (pf : platform) (features : FeatureSet)
    (scorer : Scorer) (threshold : Score) (remove_red : bool) (max_size : N) :
  (UINT_MAX <= max_size)%N ->
  forall fuel i st,
    (i <= UINT_MAX)%N ->
    eval scorer (for_loop pf features threshold remove_red fuel max_size i st)
    = None.
Proof.
  intros Hm. induction fuel as [|fuel IH]; intros i st Hi; [reflexivity|].
  cbn [for_loop]. replace (i <=? max_size)%N with true.
  2:{ symmetry. apply N.leb_le. lia. }
  rewrite eval_bind. apply IH, uint_bound.
Qed.

Lemma fst_run_incremental_selection (pf : platform) (fuel : nat)
    (features : FeatureSet) (scorer : Scorer) (threshold : Score)
    (max_size : N) (remove_red : bool) :
  fst (run_incremental_selection pf fuel features scorer threshold
                                 max_size remove_red)
  = eval scorer (for_loop pf features threshold remove_red fuel max_size 1
                          (mk_state [] [])).
Proof.
  unfold run_incremental_selection.
  apply run_cached_eval, new_cache_consistent.
Qed.

Lemma run_incremental_selection_returns (pf : platform) (fuel : nat)
    (features : FeatureSet) (scorer : Scorer) (threshold : Score)
    (max_size : N) (remove_red : bool) :
  (max_size < UINT_MAX)%N ->
  fst (run_incremental_selection pf fuel features scorer threshold
                                 max_size remove_red)
  = if N.to_nat max_size <? fuel
    then Some (state_after features scorer threshold remove_red
                           (N.to_nat max_size))
    else None.
Proof.
  intros Hm. rewrite fst_run_incremental_selection.
  rewrite (@eval_for_loop pf features scorer threshold remove_red max_size Hm
             (N.to_nat max_size)) by lia.
  reflexivity.
Qed.

Lemma run_incremental_selection_never (pf : platform) (fuel : nat)
    (features : FeatureSet) (scorer : Scorer) (threshold : Score)
    (max_size : N) (remove_red : bool) :
  (UINT_MAX <= max_size)%N ->
  fst (run_incremental_selection pf fuel features scorer threshold
                                 max_size remove_red)
  = None.
Proof.
  intros Hm. rewrite fst_run_incremental_selection.
  apply eval_for_loop_never; [exact Hm | unfold UINT_MAX; lia].
Qed.

(** X11: on the machine, for [max_size] below [UINT_MAX] and whatever the
    platform (order of the operands of line 86, size of the cache), the call
    returns, once given more than [max_size] tests of the loop condition,
    and returns the set [incremental_selection] computes over the naturals. *)
Theorem incremental_selection_on_returns (pf : platform) (fuel : nat)
    (features : FeatureSet) (scorer : Scorer) (threshold : Score)
    (max_size : N) (remove_red : bool) :
  (max_size < UINT_MAX)%N ->
  N.to_nat max_size < fuel ->
  incremental_selection_on pf fuel features scorer threshold max_size remove_red
  = Some (incremental_selection features scorer threshold
                                (N.to_nat max_size) remove_red).
Proof.
  intros Hm Hf. unfold incremental_selection_on.
  rewrite run_incremental_selection_returns by exact Hm.
  apply Nat.ltb_lt in Hf. rewrite Hf. simpl.
  now rewrite incremental_selection_eval.
Qed.

Lemma incremental_selection_on_returns_witness :
  incremental_selection_on right_to_left 3 [0; 1] flat_score 0.5%float 2 true
  = Some (incremental_selection [0; 1] flat_score 0.5%float (N.to_nat 2) true).
Proof.
  apply (@incremental_selection_on_returns
           right_to_left 3 [0; 1] flat_score 0.5%float 2%N true).
  - reflexivity.
  - simpl. lia.
Defined.

(** X12: with [max_size = UINT_MAX] the call never returns, on any pool: the
    counter wraps to 0 instead of exceeding [max_size], so that the loop
    condition of line 64 holds at every test. *)
Theorem incremental_selection_on_never_returns (pf : platform) (fuel : nat)
    (features : FeatureSet) (scorer : Scorer) (threshold : Score)
    (remove_red : bool) :
  incremental_selection_on pf fuel features scorer threshold UINT_MAX remove_red
  = None.
Proof.
  unfold incremental_selection_on.
  rewrite run_incremental_selection_never; [reflexivity | apply N.le_refl].
Qed.

(** ** The order of the candidates *)

Lemma StronglySorted_app {A : Type} (R : A -> A -> Prop) (l1 l2 : list A) :
  StronglySorted R l1 -> StronglySorted R l2 ->
  (forall a b, In a l1 -> In b l2 -> R a b) ->
  StronglySorted R (l1 ++ l2).
Proof.
  induction 1 as [|a l1 H1 IH Ha]; intros H2 Hc; simpl; [exact H2|].
  constructor.
  - apply IH; [exact H2|]. intros x y Hx Hy. apply Hc; [now right | exact Hy].
  - apply Forall_app. split; [exact Ha|].
    apply Forall_forall. intros y Hy. apply Hc; [now left | exact Hy].
Qed.

Lemma StronglySorted_map_cons (x : Feature) (l : list FeatureSet) :
  StronglySorted lex_lt l -> StronglySorted lex_lt (map (cons x) l).
Proof.
  induction 1 as [|a l H IH Ha]; simpl; constructor; [exact IH|].
  apply Forall_forall. intros y Hy. apply in_map_iff in Hy.
  destruct Hy as [t [<- Ht]]. apply lex_tail.
  rewrite Forall_forall in Ha. now apply Ha.
Qed.

Lemma powerset_lex_sorted (s : FeatureSet) :
  StronglySorted lt s -> forall n, StronglySorted lex_lt (powerset s n).
Proof.
  induction 1 as [|x s Hs IH Hx]; intros [|n]; simpl;
    try (repeat constructor).
  apply StronglySorted_app.
  - apply StronglySorted_map_cons, IH.
  - apply IH.
  - intros a b Ha Hb. apply in_map_iff in Ha. destruct Ha as [t [<- _]].
    apply In_powerset in Hb. destruct Hb as [Hi Hl].
    destruct b as [|y b]; [discriminate|]. apply lex_head.
    rewrite Forall_forall in Hx. apply Hx, Hi. now left.
Qed.

Lemma tested_at_lex_sorted (features : FeatureSet) (scorer : Scorer)
    (threshold : Score) (remove_red : bool) (i : nat) :
  StronglySorted lex_lt (tested_at features scorer threshold remove_red i).
Proof.
  unfold tested_at, candidates. apply powerset_lex_sorted.
  apply Sorted_StronglySorted; [exact Nat.lt_trans | apply tf_Sorted].
Qed.

(** ** Two invocations *)

(** C10: two invocations on the same pool, threshold, [max_size] and
    [remove_red], with scorers that answer alike on every subset, return
    equal sets when they return, whatever each platform chooses where C++
    leaves a choice (the order in which the operands of line 86 are
    evaluated, the size of the cache) and however long each is left to run.
    The candidates of every iteration are tested in the order of a
    [std::set<FeatureSet>], which the inputs fix. *)
Theorem invocations_return_equal_sets (pf1 pf2 : platform) (fuel1 fuel2 : nat)
    (features : FeatureSet) (scorer1 scorer2 : Scorer) (threshold : Score)
    (max_size : N) (remove_red : bool) :
  (forall fs, scorer1 fs = scorer2 fs) ->
  incremental_selection_on pf1 fuel1 features scorer1 threshold
                           max_size remove_red <> None ->
  incremental_selection_on pf2 fuel2 features scorer2 threshold
                           max_size remove_red <> None ->
  incremental_selection_on pf1 fuel1 features scorer1 threshold
                           max_size remove_red
  = incremental_selection_on pf2 fuel2 features scorer2 threshold
                             max_size remove_red
  /\ forall i, StronglySorted lex_lt
                 (tested_at features scorer1 threshold remove_red i).
Proof.
  intros Hs H1 H2. split; [|intros i; apply tested_at_lex_sorted].
  unfold incremental_selection_on in *.
  destruct (N.lt_ge_cases max_size UINT_MAX) as [Hm|Hm].
  - rewrite !run_incremental_selection_returns in * by exact Hm.
    destruct (N.to_nat max_size <? fuel1); [|now elim H1].
    destruct (N.to_nat max_size <? fuel2); [|now elim H2].
    simpl. f_equal. f_equal. unfold state_after. now apply eval_ext.
  - rewrite run_incremental_selection_never in H1 by exact Hm. now elim H1.
Qed.

Lemma invocations_return_equal_sets_witness :
  incremental_selection_on left_to_right 3 [0; 1] count_score 0.5%float 2 true
  = incremental_selection_on right_to_left 5 [0; 1] length_score 0.5%float 2 true
  /\ forall i, StronglySorted lex_lt
                 (tested_at [0; 1] count_score 0.5%float true i).
Proof.
  apply (@invocations_return_equal_sets
           left_to_right right_to_left 3 5 [0; 1] count_score length_score
           0.5%float 2%N true).
  - intros [|a [|b l]]; reflexivity.
  - vm_compute. discriminate.
  - vm_compute. discriminate.
Defined.

(** ** The empty pool *)

Lemma iteration_on_empty_pool (pf : platform) (threshold : Score)
    (remove_red : bool) (i : N) :
  (1 <= i)%N ->
  iteration_on pf [] threshold remove_red (mk_state [] []) i
  = Ret (mk_state [] []).
Proof.
  intros Hi. unfold iteration_on, candidates, tf.
  cbn [set_difference filter insert_range fold_left rel res].
  destruct (N.to_nat i) as [|m] eqn:E; [lia|].
  cbn [powerset foreach bind].
  destruct remove_red; [|reflexivity].
  destruct (N.to_nat (uint (i + 1))) as [|m']; reflexivity.
Qed.

Lemma for_loop_empty_pool_skip (pf : platform) (threshold : Score)
    (remove_red : bool) (max_size : N) (fuel : nat) :
  (max_size <= UINT_MAX)%N ->
  forall n i,
    (1 <= i)%N -> (i <= UINT_MAX)%N -> (i + N.of_nat n <= max_size + 1)%N ->
    for_loop pf [] threshold remove_red (n + fuel) max_size i (mk_state [] [])
    = for_loop pf [] threshold remove_red fuel max_size
               (uint (i + N.of_nat n)) (mk_state [] []).
Proof.
  intros Hm. induction n as [|n IH]; intros i H1 H2 H3.
  - rewrite N.add_0_r, uint_small by exact H2. reflexivity.
  - cbn [Nat.add for_loop]. replace (i <=? max_size)%N with true.
    2:{ symmetry. apply N.leb_le. lia. }
    rewrite iteration_on_empty_pool by exact H1. cbn [bind].
    destruct n as [|n'].
    + reflexivity.
    + rewrite uint_small by lia. rewrite IH by lia.
      f_equal. f_equal. lia.
Qed.

(** C7, on the code: with [max_size = UINT_MAX] the call on the empty pool
    does not return, and after the iterations 1 to [UINT_MAX], which score
    nothing, the counter wraps to 0 and the iteration at 0 scores the empty
    subset. *)
Theorem empty_pool_scored_at_uint_max :
  incremental_selection_on left_to_right (N.to_nat UINT_MAX + 2) []
                           flat_score 0.5%float UINT_MAX false
  = None
  /\ In [] (lookups
              (snd (run_incremental_selection
                      left_to_right (N.to_nat UINT_MAX + 2) []
                      flat_score 0.5%float UINT_MAX false))).
Proof.
  split.
  - unfold incremental_selection_on.
    rewrite run_incremental_selection_never; [reflexivity | apply N.le_refl].
  - unfold run_incremental_selection.
    rewrite run_cached_lookups by apply new_cache_consistent.
    unfold new_cache. cbn [lookups]. rewrite app_nil_r, <- in_rev.
    rewrite for_loop_empty_pool_skip.
    + rewrite N2Nat.id.
      change (uint (1 + UINT_MAX)) with 0%N.
      vm_compute. now left.
    + apply N.le_refl.
    + reflexivity.
    + discriminate.
    + rewrite N2Nat.id. discriminate.
Qed.

(** X13: on the empty pool, for [max_size] below [UINT_MAX] and on every
    platform, the call returns the empty set, the cache is never queried and
    the scorer never invoked. *)
Theorem empty_pool_selects_nothing_below_uint_max (pf : platform)
    (fuel : nat) (scorer : Scorer) (threshold : Score) (max_size : N)
    (remove_red : bool) :
  (max_size < UINT_MAX)%N ->
  N.to_nat max_size < fuel ->
  incremental_selection_on pf fuel [] scorer threshold max_size remove_red
  = Some []
  /\ misses (snd (run_incremental_selection pf fuel [] scorer threshold
                                            max_size remove_red)) = []
  /\ lookups (snd (run_incremental_selection pf fuel [] scorer threshold
                                             max_size remove_red)) = [].
Proof.
  intros Hm Hf.
  unfold incremental_selection_on, run_incremental_selection.
  replace fuel with (N.to_nat max_size + S (fuel - N.to_nat max_size - 1))
    by lia.
  rewrite for_loop_empty_pool_skip; try lia.
  rewrite N2Nat.id, uint_small by lia.
  cbn [for_loop]. replace (1 + max_size <=? max_size)%N with false.
  2:{ symmetry. apply N.leb_gt. lia. }
  repeat split.
Qed.

Lemma empty_pool_selects_nothing_below_uint_max_witness :
  incremental_selection_on right_to_left 4 [] flat_score 0.5%float 3 true
  = Some []
  /\ misses (snd (run_incremental_selection right_to_left 4 [] flat_score
                                            0.5%float 3 true)) = []
  /\ lookups (snd (run_incremental_selection right_to_left 4 [] flat_score
                                             0.5%float 3 true)) = [].
Proof.
  apply (@empty_pool_selects_nothing_below_uint_max
           right_to_left 4 flat_score 0.5%float 3%N true).
  - reflexivity.
  - simpl. lia.
Defined.

(** ** The cache on the machine *)

Lemma cache_size_exact (pf : platform) (n : nat) (max_size : N) :
  (max_size <= INT_MAX)%N ->
  (N.of_nat n ^ max_size < 4294967296)%N ->
  cache_size pf n max_size = n ^ N.to_nat max_size.
Proof.
  intros H1 H2. unfold cache_size.
  apply N.leb_le in H1. apply N.ltb_lt in H2. rewrite H1, H2. simpl.
  rewrite <- (N2Nat.id max_size) at 1.
  now rewrite <- Nat2N.inj_pow, Nat2N.id.
Qed.

(** C9, the claim as it stands fails: on the pool [{0, 1}] with
    [max_size = 1] the cache holds two entries; scoring [{0, 1}] evicts
    [{0}], which is then scored a second time, in either order of the
    operands of line 86. *)
Lemma scorer_invoked_twice_after_eviction :
  cache_size left_to_right (length [0; 1]) 1 = 2
  /\ count_occ fs_eq_dec
       (misses (snd (run_incremental_selection
                       left_to_right 2 [0; 1] count_score 0.5%float 1 true)))
       [0]
     = 2
  /\ count_occ fs_eq_dec
       (misses (snd (run_incremental_selection
                       right_to_left 2 [0; 1] count_score 0.5%float 1 true)))
       [0]
     = 2.
Proof.
  repeat split; vm_compute; reflexivity.
Qed.

(** C9 (amended): line 58 gives the cache [|features|^max_size] entries when
    [max_size] is at most [INT_MAX] and that power is below [2^32]; and
    within one call, on every platform, as long as the number of distinct
    subsets queried does not exceed the size the cache was given, the scorer
    is invoked at most once on every subset, however often the subset is
    queried. *)
Theorem scorer_invoked_once_within_capacity (pf : platform) (fuel : nat)
    (features : FeatureSet) (scorer : Scorer) (threshold : Score)
    (max_size : N) (remove_red : bool) :
  ((max_size <= INT_MAX)%N ->
   (N.of_nat (length features) ^ max_size < 4294967296)%N ->
   cache_size pf (length features) max_size
   = length features ^ N.to_nat max_size)
  /\ (length (nodup fs_eq_dec
                (lookups (snd (run_incremental_selection
                                 pf fuel features scorer threshold
                                 max_size remove_red))))
      <= cache_size pf (length features) max_size ->
      NoDup (misses (snd (run_incremental_selection
                            pf fuel features scorer threshold
                            max_size remove_red)))).
Proof.
  split; [apply cache_size_exact|].
  intros H. unfold run_incremental_selection in *.
  apply (@run_cached_no_eviction _ scorer
           (for_loop pf features threshold remove_red fuel max_size 1
                     (mk_state [] []))
           (new_cache (cache_size pf (length features) max_size))).
  - intros _. repeat split; simpl; [constructor | constructor | apply incl_refl].
  - unfold within_capacity. rewrite run_cached_capacity. exact H.
Qed.

Lemma scorer_invoked_once_within_capacity_witness :
  cache_size right_to_left (length [0; 1; 2]) 2 = 9
  /\ length (lookups (snd (run_incremental_selection
                             right_to_left 3 [0; 1; 2] count_score
                             0.5%float 2 true)))
     = 17
  /\ NoDup (misses (snd (run_incremental_selection
                           right_to_left 3 [0; 1; 2] count_score
                           0.5%float 2 true))).
Proof.
  destruct (@scorer_invoked_once_within_capacity
              right_to_left 3 [0; 1; 2] count_score 0.5%float 2%N true)
    as [Hsize Honce].
  split; [apply Hsize; [discriminate | reflexivity]|].
  split; [vm_compute; reflexivity|].
  apply Honce. vm_compute. lia.
Defined.

(** ** What a call on the machine asks the scorer *)

Lemma run_incremental_selection_lookups (pf : platform) (fuel : nat)
    (features : FeatureSet) (scorer : Scorer) (threshold : Score)
    (max_size : N) (remove_red : bool) :
  lookups (snd (run_incremental_selection pf fuel features scorer threshold
                                          max_size remove_red))
  = rev (queries scorer
                 (for_loop pf features threshold remove_red fuel max_size 1
                           (mk_state [] []))).
Proof.
  unfold run_incremental_selection.
  rewrite run_cached_lookups by apply new_cache_consistent.
  apply app_nil_r.
Qed.

Lemma queries_find_redundant_on (pf : platform) (scorer : Scorer)
    (threshold : Score) (P : FeatureSet -> Prop) (fs : FeatureSet)
    (l : list Feature) :
  P fs -> (forall f, In f l -> P (erase f fs)) ->
  Forall P (queries scorer (find_redundant_on pf threshold fs l)).
Proof.
  intros Hfs. induction l as [|f l IH]; intros Hl; [constructor|].
  cbn [find_redundant_on]. destruct (left_first pf); simpl;
    (constructor; [|constructor]);
    try exact Hfs; try (apply Hl; now left);
    (destruct (scorer fs - scorer (erase f fs) <? threshold)%float;
     [constructor | apply IH; intros g Hg; apply Hl; now right]).
Qed.

Lemma queries_redundancy_test_on (pf : platform) (scorer : Scorer)
    (threshold : Score) (P : FeatureSet -> Prop) (red fs : FeatureSet) :
  P fs -> (forall f, In f fs -> P (erase f fs)) ->
  Forall P (queries scorer (redundancy_test_on pf threshold red fs)).
Proof.
  intros Hfs Hl. unfold redundancy_test_on.
  destruct (has_empty_intersection fs red); [|constructor].
  rewrite queries_bind. apply Forall_app. split.
  - now apply queries_find_redundant_on.
  - constructor.
Qed.

Lemma queries_iteration_on_askable (pf : platform) (features : FeatureSet)
    (scorer : Scorer) (threshold : Score) (remove_red : bool) (m : N)
    (st : loop_state) (i : N) :
  (m < UINT_MAX)%N -> (1 <= i <= m)%N ->
  Sorted lt (rel st) /\ incl (rel st) features ->
  Forall (askable features
                  (if remove_red then N.to_nat m + 1 else N.to_nat m))
         (queries scorer (iteration_on pf features threshold remove_red st i))
  /\ (Sorted lt
        (rel (eval scorer
                   (iteration_on pf features threshold remove_red st i)))
      /\ incl (rel (eval scorer
                         (iteration_on pf features threshold remove_red st i)))
              features).
Proof.
  intros Hm Hi [Hs Hincl]. split.
  - unfold iteration_on. rewrite queries_bind, queries_relevance_pass.
    apply Forall_app. split.
    + apply Forall_forall. intros fs Hfs. unfold candidates in Hfs.
      apply In_powerset in Hfs. destruct Hfs as [Hsub Hlen].
      repeat split.
      * intros ->. simpl in Hlen. lia.
      * intros x Hx. apply Hsub, In_tf in Hx. tauto.
      * destruct remove_red; lia.
    + fold (relevant_after features scorer threshold (N.to_nat i) (rel st)).
      set (rel' := relevant_after features scorer threshold (N.to_nat i)
                                  (rel st)).
      assert (Hs' : Sorted lt rel') by now apply relevant_after_Sorted.
      assert (Hincl' : incl rel' features) by now apply relevant_after_incl.
      destruct remove_red; [|constructor].
      rewrite queries_bind. apply Forall_app. split; [|constructor].
      apply (@queries_foreach_Forall _ _ scorer
               (askable features (N.to_nat m + 1)) (fun _ => True)); [|exact I].
      intros red fs Hfs _. split; [|exact I].
      rewrite uint_small in Hfs by lia.
      apply In_powerset_iff in Hfs. destruct Hfs as [Hsub Hlen].
      assert (Hnd : NoDup fs).
      { apply (subset_of_NoDup Hsub). now apply Sorted_lt_NoDup. }
      assert (Hfsf : incl fs features).
      { intros x Hx. apply Hincl'. now apply (subset_of_incl Hsub). }
      apply queries_redundancy_test_on.
      * repeat split; [intros ->; simpl in Hlen; lia | exact Hfsf | lia].
      * intros f Hf. pose proof (@erase_length f fs Hnd Hf) as He.
        repeat split.
        -- intros E. rewrite E in He. simpl in He. lia.
        -- intros x Hx. apply Hfsf. now apply (erase_incl f).
        -- lia.
  - rewrite eval_iteration_on by lia. rewrite eval_iteration.
    cbv zeta. simpl rel. split.
    + now apply relevant_after_Sorted.
    + now apply relevant_after_incl.
Qed.

Lemma queries_for_loop_askable (pf : platform) (features : FeatureSet)
    (scorer : Scorer) (threshold : Score) (remove_red : bool) (m : N) :
  (m < UINT_MAX)%N ->
  forall fuel i st,
    (1 <= i)%N ->
    Sorted lt (rel st) /\ incl (rel st) features ->
    Forall (askable features
                    (if remove_red then N.to_nat m + 1 else N.to_nat m))
           (queries scorer
                    (for_loop pf features threshold remove_red fuel m i st)).
Proof.
  intros Hm. induction fuel as [|fuel IH]; intros i st Hi Hst;
    [constructor|].
  cbn [for_loop]. destruct (N.leb_spec i m) as [Hle|Hgt]; [|constructor].
  rewrite queries_bind.
  destruct (@queries_iteration_on_askable pf features scorer threshold
              remove_red m st i Hm (conj Hi Hle) Hst) as [Hq Hst'].
  apply Forall_app. split; [exact Hq|].
  apply IH; [|exact Hst']. rewrite uint_small by lia. lia.
Qed.

(** X1: for [max_size] below [UINT_MAX], every subset a call asks the scorer
    about is a non-empty set of features of the pool; it has at most
    [max_size] features when [remove_red] is false and at most
    [max_size + 1] when it is true.  In particular the empty subset is not
    scored. *)
Theorem scorer_asked_nonempty_bounded_subsets (pf : platform) (fuel : nat)
    (features : FeatureSet) (scorer : Scorer) (threshold : Score)
    (max_size : N) (remove_red : bool) :
  (max_size < UINT_MAX)%N ->
  Forall (askable features
                  (if remove_red then N.to_nat max_size + 1
                   else N.to_nat max_size))
         (lookups (snd (run_incremental_selection
                          pf fuel features scorer threshold
                          max_size remove_red))).
Proof.
  intros Hm. rewrite run_incremental_selection_lookups. apply Forall_rev.
  apply queries_for_loop_askable; [exact Hm | discriminate|].
  simpl. split; [constructor | apply incl_nil_l].
Qed.

Lemma scorer_asked_nonempty_bounded_subsets_witness :
  Forall (askable [0; 1; 2] (N.to_nat 2 + 1))
         (lookups (snd (run_incremental_selection
                          right_to_left 3 [0; 1; 2] count_score 0.5%float
                          2 true))).
Proof.
  apply (@scorer_asked_nonempty_bounded_subsets
           right_to_left 3 [0; 1; 2] count_score 0.5%float 2%N true).
  reflexivity.
Defined.

Lemma queries_for_loop_relevance (pf : platform) (features : FeatureSet)
    (scorer : Scorer) (threshold : Score) (max_size : N) :
  (max_size < UINT_MAX)%N ->
  forall k i st fuel,
    (1 <= i)%N -> (i + N.of_nat k = max_size + 1)%N -> k < fuel ->
    queries scorer (for_loop pf features threshold false fuel max_size i st)
    = queries scorer
              (foreach (seq (N.to_nat i) k)
                       (iteration features threshold false) st).
Proof.
  intros Hm. induction k as [|k IH]; intros i st [|fuel] Hi Hk Hf;
    try lia.
  - cbn [for_loop]. replace (i <=? max_size)%N with false; [reflexivity|].
    symmetry. apply N.leb_gt. lia.
  - cbn [for_loop]. replace (i <=? max_size)%N with true.
    2:{ symmetry. apply N.leb_le. lia. }
    change (iteration_on pf features threshold false st i)
      with (iteration features threshold false st (N.to_nat i)).
    rewrite queries_bind, uint_small by lia.
    rewrite IH by lia.
    rewrite to_nat_succ. cbn [seq foreach]. rewrite queries_bind.
    reflexivity.
Qed.

(** X2: for [max_size] below [UINT_MAX] and [remove_red = false], a call that
    is left to return queries the cache for exactly the candidates of the
    iterations 1 to [max_size], in the order of the iterations and of the
    candidates of each, and for no subset twice. *)
Theorem relevance_queries_each_candidate_once (pf : platform) (fuel : nat)
    (features : FeatureSet) (scorer : Scorer) (threshold : Score)
    (max_size : N) :
  (max_size < UINT_MAX)%N ->
  N.to_nat max_size < fuel ->
  rev (lookups (snd (run_incremental_selection
                       pf fuel features scorer threshold max_size false)))
  = concat (map (tested_at features scorer threshold false)
                (seq 1 (N.to_nat max_size)))
  /\ NoDup (lookups (snd (run_incremental_selection
                            pf fuel features scorer threshold
                            max_size false))).
Proof.
  intros Hm Hf. rewrite run_incremental_selection_lookups.
  rewrite (@queries_for_loop_relevance pf features scorer threshold max_size
             Hm (N.to_nat max_size)) by lia.
  change (N.to_nat 1) with 1.
  fold (selection_loop features threshold false (N.to_nat max_size)).
  rewrite queries_selection_relevance, rev_involutive.
  split; [reflexivity|].
  apply NoDup_rev, tested_upto_NoDup.
Qed.

Lemma relevance_queries_each_candidate_once_witness :
  rev (lookups (snd (run_incremental_selection
                       left_to_right 3 [0; 1; 2] scenario_score 0.5%float
                       2 false)))
  = concat (map (tested_at [0; 1; 2] scenario_score 0.5%float false)
                (seq 1 (N.to_nat 2)))
  /\ NoDup (lookups (snd (run_incremental_selection
                            left_to_right 3 [0; 1; 2] scenario_score
                            0.5%float 2 false))).
Proof.
  apply (@relevance_queries_each_candidate_once
           left_to_right 3 [0; 1; 2] scenario_score 0.5%float 2%N).
  - reflexivity.
  - simpl. lia.
Defined.
